(** * Zork [dtextc.dat] text extractor: a shallow embedding of [decode.py]

    The Python script walks the metadata of a Dungeon/Zork data file with a
    shared file cursor, decrypts the trailing text region with the positional
    XOR cipher of [dsub.c], and segments the plain text into messages.

    The embedding follows the script function by function:
    - a file object is its content together with a cursor;
    - every function that touches the file is a computation in [io], a state
      and exception monad over the file;
    - Python's [None] is [option]'s [None], Python integers are [Z];
    - a [str] is the list of its Unicode code points;
    - the [dict] built by [read_partial_ints] is a [gmap Z Z]. *)

From Stdlib Require Import ZArith List String Ascii QArith Lia Bool.
From Stdlib Require Import Strings.Byte.
From stdpp Require Import gmap.
Import ListNotations.

Local Open Scope Z_scope.

(** ** Python values *)

(** The exceptions the script can meet. *)
Inductive exn : Type :=
| TypeError
| ValueError
| IndexError
| OSError.

(** Outcome of running a piece of the script.  [OutOfFuel] is not a Python
    outcome: it marks a [while True] loop of the model that was not given
    enough iterations, and is shown unreachable below. *)
Inductive result (A : Type) : Type :=
| Ok (a : A)
| Raise (e : exn)
| OutOfFuel.

Arguments Ok {A} a.
Arguments Raise {A} e.
Arguments OutOfFuel {A}.

(** [ord(b)] for a one-byte [bytes] object, and the integer an iteration over
    [bytes] yields. *)
Definition ord (b : byte) : Z := Z.of_N (Byte.to_N b).

(** [bytearray.append(v)]: [ValueError] unless [v] is in [range(256)]. *)
Definition bytearray_append (acc : list byte) (v : Z) : result (list byte) :=
  if (0 <=? v) && (v <? 256) then
    match Byte.of_N (Z.to_N v) with
    | Some b => Ok (acc ++ [b])
    | None => Raise ValueError
    end
  else Raise ValueError.

(** A [str]: the sequence of its code points. *)
Definition str : Type := list Z.

(** A string literal of the script, as a [str]. *)
Definition py_str (s : string) : str :=
  map (fun a => Z.of_N (N_of_ascii a)) (list_ascii_of_string s).

(** A bytes literal of the script. *)
Definition py_bytes (s : string) : list byte := list_byte_of_string s.

(** ** The file object *)

Record file : Type := mkFile {
  content : list byte;
  cursor : nat
}.

(** [open(input_file, 'rb')] *)
Definition open_rb (bs : list byte) : file := mkFile bs 0.

Definition io (A : Type) : Type := file -> result (A * file).

Definition ret {A : Type} (a : A) : io A := fun f => Ok (a, f).

Definition bind {A B : Type} (m : io A) (k : A -> io B) : io B :=
  fun f =>
    match m f with
    | Ok (a, f') => k a f'
    | Raise e => Raise e
    | OutOfFuel => OutOfFuel
    end.

Definition raise {A : Type} (e : exn) : io A := fun _ => Raise e.

(** A computation that does not touch the file, run inside [io]. *)
Definition lift {A : Type} (r : result A) : io A :=
  fun f =>
    match r with
    | Ok a => Ok (a, f)
    | Raise e => Raise e
    | OutOfFuel => OutOfFuel
    end.

Notation "x <- m ;; k" := (bind m (fun x => k))
  (at level 90, m at level 89, right associativity, only parsing).
Notation "m ;;; k" := (bind m (fun _ => k))
  (at level 90, right associativity, only parsing).

(** Bytes between the cursor and the end of the file. *)
Definition remaining (f : file) : list byte := skipn (cursor f) (content f).

(** [f.read(n)]: at most [n] bytes, fewer only at the end of the file. *)
Definition f_read (n : nat) : io (list byte) :=
  fun f =>
    let bs := firstn n (remaining f) in
    Ok (bs, mkFile (content f) (cursor f + length bs)).

(** [f.read()]: everything up to the end of the file. *)
Definition f_read_all : io (list byte) :=
  fun f =>
    let bs := remaining f in
    Ok (bs, mkFile (content f) (cursor f + length bs)).

(** [f.tell()] *)
Definition f_tell : io Z := fun f => Ok (Z.of_nat (cursor f), f).

(** [f.seek(pos)]: a negative position is refused by the operating system. *)
Definition f_seek (pos : Z) : io unit :=
  fun f =>
    if pos <? 0 then Raise OSError
    else Ok (tt, mkFile (content f) (Z.to_nat pos)).

(** ** Cursor reader (lines 23-75) *)

(** [struct.unpack('>h', bytes_data)[0]] on two bytes. *)
Definition unpack_h (hi lo : byte) : Z :=
  let u := ord hi * 256 + ord lo in
  if u <? 32768 then u else u - 65536.

Definition read_int16_be : io (option Z) :=
  bytes_data <- f_read 2 ;;
  match bytes_data with
  | [hi; lo] => ret (Some (unpack_h hi lo))
  | _ => ret None
  end.

(** The body of [for _ in range(count)] in [read_multiple_ints], [n]
    iterations left. *)
Fixpoint read_multiple_loop (n : nat) (values : list Z) : io (list Z) :=
  match n with
  | O => ret values
  | S n' =>
      val <- read_int16_be ;;
      match val with
      | None => ret values
      | Some v => read_multiple_loop n' (values ++ [v])
      end
  end.

(** [range(count)] raises [TypeError] on [None] and is empty for a negative
    count. *)
Definition read_multiple_ints (count : option Z) : io (list Z) :=
  match count with
  | None => raise TypeError
  | Some c => read_multiple_loop (Z.to_nat c) []
  end.

(** The [while True] loop of [read_partial_ints].  Every iteration that does
    not leave the loop consumes at least one byte, so [fuel] bounds the
    number of iterations. *)
Fixpoint read_partial_loop (fuel : nat) (max_count : option Z)
    (values : gmap Z Z) : io (gmap Z Z) :=
  match fuel with
  | O => fun _ => OutOfFuel
  | S fuel' =>
      match max_count with
      | None => raise TypeError
      | Some mc =>
          if mc <? 255 then
            index_byte <- f_read 1 ;;
            match index_byte with
            | [] => ret values
            | b :: _ =>
                let index := ord b in
                if index =? 255 then ret values
                else
                  value <- read_int16_be ;;
                  match value with
                  | Some v => read_partial_loop fuel' max_count (<[index := v]> values)
                  | None => read_partial_loop fuel' max_count values
                  end
            end
          else
            index <- read_int16_be ;;
            match index with
            | None => ret values
            | Some i =>
                if i =? -1 then ret values
                else
                  value <- read_int16_be ;;
                  match value with
                  | Some v => read_partial_loop fuel' max_count (<[i := v]> values)
                  | None => read_partial_loop fuel' max_count values
                  end
            end
      end
  end.

Definition read_partial_ints (max_count : option Z) : io (gmap Z Z) :=
  fun f => read_partial_loop (S (length (remaining f))) max_count ∅ f.

Fixpoint read_flags_loop (n : nat) (flags : list bool) : io (list bool) :=
  match n with
  | O => ret flags
  | S n' =>
      b <- f_read 1 ;;
      match b with
      | [] => ret flags
      | x :: _ => read_flags_loop n' (flags ++ [negb (ord x =? 0)])
      end
  end.

Definition read_flags (count : option Z) : io (list bool) :=
  match count with
  | None => raise TypeError
  | Some c => read_flags_loop (Z.to_nat c) []
  end.

(** ** Positional XOR codec (lines 78-100) *)

Definition rbind {A B : Type} (r : result A) (k : A -> result B) : result B :=
  match r with
  | Ok a => k a
  | Raise e => Raise e
  | OutOfFuel => OutOfFuel
  end.

(** [s[i]] on a [bytes] object: negative indices count from the end,
    [IndexError] outside the object. *)
Definition bytes_getitem (s : list byte) (i : Z) : result Z :=
  let len := Z.of_nat (length s) in
  let j := if i <? 0 then i + len else i in
  if (0 <=? j) && (j <? len) then
    match nth_error s (Z.to_nat j) with
    | Some b => Ok (ord b)
    | None => Raise IndexError
    end
  else Raise IndexError.

Definition zkey : list byte := py_bytes "IanLanceTaylorJr".

(** The [for encrypted_byte in data] loop, with the counter [x] and the
    [bytearray] built so far. *)
Fixpoint decrypt_loop (data : list byte) (x : Z) (decrypted : list byte)
    : result (list byte) :=
  match data with
  | [] => Ok decrypted
  | encrypted_byte :: data' =>
      rbind (bytes_getitem zkey (Z.land x 0xf)) (fun key_char =>
      let position_xor := Z.land x 0xff in
      let decrypted_byte :=
        Z.lxor (Z.lxor (ord encrypted_byte) key_char) position_xor in
      rbind (bytearray_append decrypted decrypted_byte) (fun decrypted' =>
      decrypt_loop data' (x + 1) decrypted'))
  end.

Definition decrypt_text (data : list byte) (start_offset : Z)
    : result (list byte) :=
  decrypt_loop data start_offset [].

(** ** Schema walker (lines 103-197) *)

(** [chr(i)]: [ValueError] outside [range(0x110000)]. *)
Definition chr (i : Z) : result Z :=
  if (0 <=? i) && (i <? 0x110000) then Ok i else Raise ValueError.

(** Line 113.  The text printed does not matter here, but evaluating the
    f-string can raise: [vedit < 128] is a [TypeError] when [vedit] is
    [None], and [chr(vedit)] a [ValueError] when [vedit] is negative. *)
Definition print_version (vmaj vmin vedit : option Z) : io unit :=
  match vedit with
  | None => raise TypeError
  | Some e =>
      if e <? 128 then lift (rbind (chr e) (fun _ => Ok tt)) else ret tt
  end.

(** Line 119.  The format [{strbit:04x}] is a [TypeError] when [strbit] is
    [None]; [{mxscor}] and [{egmxsc}] print [None] as it is. *)
Definition print_parameters (mxscor strbit egmxsc : option Z) : io unit :=
  match strbit with
  | None => raise TypeError
  | Some _ => ret tt
  end.

(** The other [print] calls (lines 107, 123, 133, 138, 156, 162, 169, 178,
    190, 195) format their arguments with [{...}] alone, which accepts
    [None]; they cannot raise and are left out. *)
Definition skip_metadata : io (Z * list Z) :=
  (* Read version header (3 integers) *)
  vmaj <- read_int16_be ;;
  vmin <- read_int16_be ;;
  vedit <- read_int16_be ;;
  print_version vmaj vmin vedit ;;;
  (* Read game parameters (3 integers) *)
  mxscor <- read_int16_be ;;
  strbit <- read_int16_be ;;
  egmxsc <- read_int16_be ;;
  print_parameters mxscor strbit egmxsc ;;;
  (* Rooms data *)
  rlnt <- read_int16_be ;;
  read_multiple_ints rlnt ;;;  (* rdesc1 *)
  read_multiple_ints rlnt ;;;  (* rdesc2 *)
  read_multiple_ints rlnt ;;;  (* rexit *)
  read_partial_ints rlnt ;;;   (* ractio *)
  read_partial_ints rlnt ;;;   (* rval *)
  read_multiple_ints rlnt ;;;  (* rflag *)
  (* Exits/Travel data *)
  xlnt <- read_int16_be ;;
  read_multiple_ints xlnt ;;;  (* travel *)
  (* Objects data *)
  olnt <- read_int16_be ;;
  read_multiple_ints olnt ;;;  (* odesc1 *)
  read_multiple_ints olnt ;;;  (* odesc2 *)
  read_partial_ints olnt ;;;   (* odesco *)
  read_partial_ints olnt ;;;   (* oactio *)
  read_multiple_ints olnt ;;;  (* oflag1 *)
  read_partial_ints olnt ;;;   (* oflag2 *)
  read_partial_ints olnt ;;;   (* ofval *)
  read_partial_ints olnt ;;;   (* otval *)
  read_multiple_ints olnt ;;;  (* osize *)
  read_partial_ints olnt ;;;   (* ocapac *)
  read_multiple_ints olnt ;;;  (* oroom *)
  read_partial_ints olnt ;;;   (* oadv *)
  read_partial_ints olnt ;;;   (* ocan *)
  read_partial_ints olnt ;;;   (* oread *)
  (* Secondary room data *)
  r2lnt <- read_int16_be ;;
  read_multiple_ints r2lnt ;;;  (* oroom2 *)
  read_multiple_ints r2lnt ;;;  (* rroom2 *)
  (* Clock events *)
  clnt <- read_int16_be ;;
  read_multiple_ints clnt ;;;  (* ctick *)
  read_multiple_ints clnt ;;;  (* cactio *)
  read_flags clnt ;;;          (* cflag *)
  (* Villains *)
  vlnt <- read_int16_be ;;
  read_multiple_ints vlnt ;;;  (* villns *)
  read_partial_ints vlnt ;;;   (* vprob *)
  read_partial_ints vlnt ;;;   (* vopps *)
  read_multiple_ints vlnt ;;;  (* vbest *)
  read_multiple_ints vlnt ;;;  (* vmelee *)
  (* Adventurers *)
  alnt <- read_int16_be ;;
  read_multiple_ints alnt ;;;  (* aroom *)
  read_partial_ints alnt ;;;   (* ascore *)
  read_partial_ints alnt ;;;   (* avehic *)
  read_multiple_ints alnt ;;;  (* aobj *)
  read_multiple_ints alnt ;;;  (* aactio *)
  read_multiple_ints alnt ;;;  (* astren *)
  read_partial_ints alnt ;;;   (* aflag *)
  (* Message metadata *)
  mbase <- read_int16_be ;;
  mlnt <- read_int16_be ;;
  message_indices <- read_multiple_ints mlnt ;;
  (* Current position is where text starts! *)
  text_start_pos <- f_tell ;;
  ret (text_start_pos, message_indices).

(** ** Message segmenter (lines 200-267) *)

(** [a / b] on integers with [0 < b].  Python returns the double nearest to
    the exact quotient; the model keeps the exact quotient, in lowest
    terms. *)
Definition true_div (a b : Z) : Q := Qred (a # Z.to_pos b).

(** The double written [0.7] in the script, exactly. *)
Definition float_0_7 : Q := 3152519739159347 # 4503599627370496.

Definition Qgt_bool (x y : Q) : bool := negb (Qle_bool x y).

(** [32 <= b <= 126 or b in (9, 10, 13, 0)] (line 214) *)
Definition quality_byte (b : Z) : bool :=
  ((32 <=? b) && (b <=? 126)) || ((b =? 9) || (b =? 10) || (b =? 13) || (b =? 0)).

(** Lines 214-215. *)
Definition decryption_quality (decrypted_data : list byte) : Q :=
  let printable_count :=
    Z.of_nat (length (List.filter (fun b => quality_byte (ord b)) decrypted_data)) in
  let len := Z.of_nat (length decrypted_data) in
  if 0 <? len then true_div printable_count len else 0%Q.

(** [bs.decode('ascii', errors='replace')]: a byte above 127 becomes
    U+FFFD. *)
Definition decode_ascii_replace (bs : list byte) : str :=
  map (fun b => if ord b <? 128 then ord b else 0xFFFD) bs.

(** [c.isprintable()] on the code points [decode_ascii_replace] yields:
    among U+0000..U+007F the printable ones are U+0020..U+007E, and U+FFFD
    (category So) is printable. *)
Definition isprintable (c : Z) : bool :=
  ((32 <=? c) && (c <=? 126)) || (c =? 0xFFFD).

(** [c.isprintable() or c in '\n\r\t'] *)
Definition text_char (c : Z) : bool :=
  isprintable c || ((c =? 10) || (c =? 13) || (c =? 9)).

(** [bs.find(x)] for a one-byte [x]: the first index, or [-1]. *)
Fixpoint bytes_find_from (bs : list byte) (x : byte) (i : Z) : Z :=
  match bs with
  | [] => -1
  | b :: bs' => if ord b =? ord x then i else bytes_find_from bs' x (i + 1)
  end.

Definition bytes_find (bs : list byte) (x : byte) : Z := bytes_find_from bs x 0.

(** [range(0, stop, 8)] *)
Definition range_by_8 (stop : nat) : list nat :=
  map (fun k => (8 * k)%nat) (seq 0 ((stop + 7) / 8)).

(** One iteration of the loop of lines 221-236. *)
Definition fixed_stride_step (decrypted_data : list byte)
    (messages : list str) (i : nat) : list str :=
  let chunk := firstn 8 (skipn i decrypted_data) in
  let null_pos := bytes_find chunk x00 in
  let chunk :=
    if negb (null_pos =? -1) then firstn (Z.to_nat null_pos) chunk else chunk in
  if (0 <? length chunk)%nat then
    let text := decode_ascii_replace chunk in
    if existsb text_char text then messages ++ [text] else messages
  else messages.

(** Lines 220-236: messages as 8-byte records. *)
Definition fixed_stride_messages (decrypted_data : list byte) : list str :=
  fold_left (fixed_stride_step decrypted_data)
    (range_by_8 (length decrypted_data)) [].

(** One iteration of the loop of lines 242-261, on the pair
    [(continuous_messages, current_string)]. *)
Definition continuous_step (st : list str * list byte) (byte_ : byte)
    : list str * list byte :=
  let '(continuous_messages, current_string) := st in
  let b := ord byte_ in
  if b =? 0 then
    if (2 <? length current_string)%nat then
      let text := decode_ascii_replace current_string in
      if Qgt_bool
           (true_div (Z.of_nat (length (List.filter text_char text)))
                     (Z.of_nat (length text)))
           float_0_7
      then (continuous_messages ++ [text], [])
      else (continuous_messages, [])
    else (continuous_messages, [])
  else if ((32 <=? b) && (b <=? 126)) || ((b =? 9) || (b =? 10) || (b =? 13)) then
    (continuous_messages, current_string ++ [byte_])
  else
    if (2 <? length current_string)%nat then
      (continuous_messages ++ [decode_ascii_replace current_string], [])
    else (continuous_messages, []).

(** Lines 239-261: messages as null-terminated strings. *)
Definition continuous_messages (decrypted_data : list byte) : list str :=
  fst (fold_left continuous_step decrypted_data ([], [])).

(** Lines 263-265. *)
Definition select_messages (messages continuous : list str) : list str :=
  if (length messages <? length continuous)%nat then continuous else messages.

(** Lines 213-267: what [extract_messages] makes of the decrypted bytes. *)
Definition segment (decrypted_data : list byte) : list str * Q :=
  let quality := decryption_quality decrypted_data in
  let messages := fixed_stride_messages decrypted_data in
  let continuous := continuous_messages decrypted_data in
  (select_messages messages continuous, quality).

Definition extract_messages (start_pos : Z) (message_indices : list Z)
    : io (list str * Q) :=
  f_seek start_pos ;;;
  encrypted_data <- f_read_all ;;
  (* The position counter x starts at 0 for the text section *)
  decrypted_data <- lift (decrypt_text encrypted_data 0) ;;
  ret (segment decrypted_data).

(** Lines 293-298 of [main]: the two calls made on the opened file. *)
Definition pipeline : io (list str * Q) :=
  r <- skip_metadata ;;
  extract_messages (fst r) (snd r).

Definition run_pipeline (bs : list byte) : result (list str * Q) :=
  match pipeline (open_rb bs) with
  | Ok (r, _) => Ok r
  | Raise e => Raise e
  | OutOfFuel => OutOfFuel
  end.

(** ** Sample inputs *)

Definition zero_header : list byte :=
  [x00; x00; x00; x00; x00; x00; x00; x00; x00; x00; x00; x00].

Definition hello_world : list byte := py_bytes "HELLO" ++ [x00] ++ py_bytes "WORLD" ++ [x00].

(** * Definitions used to state the properties *)

(** The key byte used at counter [x], as an integer. *)
Definition key_char_at (x : Z) : Z := nth (Z.to_nat (x mod 16)) (map ord zkey) 0.

(** What the cipher makes of byte value [v] at counter [x]. *)
Definition cipher_value (v x : Z) : Z :=
  Z.lxor (Z.lxor v (key_char_at x)) (x mod 256).

(** The plain values of a byte sequence deciphered from counter [x] on. *)
Fixpoint cipher_values (data : list byte) (x : Z) : list Z :=
  match data with
  | [] => []
  | b :: data' => cipher_value (ord b) x :: cipher_values data' (x + 1)
  end.

(** The byte values the quality ratio counts. *)
Definition allowed_value (v : Z) : Prop :=
  v = 9 \/ v = 10 \/ v = 13 \/ v = 0 \/ 32 <= v <= 126.

Definition allowed_count (d : list byte) : nat :=
  length (List.filter (fun b => quality_byte (ord b)) d).

(** Three 8-byte records, five null-terminated strings. *)
Definition three_vs_five : list byte :=
  py_bytes "abc" ++ [x00] ++ py_bytes "def" ++ [x00]
  ++ py_bytes "ghi" ++ [x00] ++ py_bytes "jkl" ++ [x00]
  ++ py_bytes "mno" ++ [x00; x00; x00; x00; x00].

(** The file with its cursor [n] bytes further. *)
Definition advance (f : file) (n : nat) : file :=
  mkFile (content f) (cursor f + n).

(** An entry with a one-byte index, and one with a 16-bit index, as the
    bytes that encode them. *)
Record small_entry : Type := SmallEntry { s_index : byte; s_hi : byte; s_lo : byte }.
Record wide_entry : Type :=
  WideEntry { w_index_hi : byte; w_index_lo : byte; w_hi : byte; w_lo : byte }.

Definition encode_small (es : list small_entry) : list byte :=
  flat_map (fun e => [s_index e; s_hi e; s_lo e]) es.

Definition encode_wide (es : list wide_entry) : list byte :=
  flat_map (fun e => [w_index_hi e; w_index_lo e; w_hi e; w_lo e]) es.

(** The index and the value an entry stands for. *)
Definition small_pair (e : small_entry) : Z * Z :=
  (ord (s_index e), unpack_h (s_hi e) (s_lo e)).

Definition wide_pair (e : wide_entry) : Z * Z :=
  (unpack_h (w_index_hi e) (w_index_lo e), unpack_h (w_hi e) (w_lo e)).

(** [values[index] = value] for each pair in turn, starting from [init]. *)
Definition assign_all (ps : list (Z * Z)) (init : gmap Z Z) : gmap Z Z :=
  fold_left (fun m p => <[fst p := snd p]> m) ps init.

(** An entry whose index is not the sentinel of its encoding. *)
Definition small_ok (e : small_entry) : Prop := ord (s_index e) <> 255.
Definition wide_ok (e : wide_entry) : Prop :=
  unpack_h (w_index_hi e) (w_index_lo e) <> -1.

(** The map {0: 5, 3: -2} under both encodings, followed by one more byte;
    the small one assigns index 0 twice. *)
Definition small_wire : list byte :=
  [x00; x00; x09; x00; x00; x05; x03; xff; xfe; xff; xaa].

Definition wide_wire : list byte :=
  [x00; x00; x00; x05; x00; x03; xff; xfe; xff; xff; xaa].

Inductive field_kind : Type := DenseArray | SparseMap | FlagArray.

(** One field read with the section's count, then the rest of the walk. *)
Definition read_field {A : Type} (k : field_kind) (count : option Z)
    (cont : io A) : io A :=
  match k with
  | DenseArray => read_multiple_ints count ;;; cont
  | SparseMap => read_partial_ints count ;;; cont
  | FlagArray => read_flags count ;;; cont
  end.

Fixpoint read_fields {A : Type} (fields : list (string * field_kind))
    (count : option Z) (cont : io A) : io A :=
  match fields with
  | [] => cont
  | (_, k) :: fields' => read_field k count (read_fields fields' count cont)
  end.

(** A section: one leading count, then its fields, all read with that
    count. *)
Fixpoint walk_sections {A : Type}
    (sections : list (string * list (string * field_kind))) (cont : io A)
    : io A :=
  match sections with
  | [] => cont
  | (_, fields) :: sections' =>
      count <- read_int16_be ;;
      read_fields fields count (walk_sections sections' cont)
  end.

(** The seven sections whose values are dropped. *)
Definition skipped_sections : list (string * list (string * field_kind)) :=
  [ ("rooms",
     [("rdesc1", DenseArray); ("rdesc2", DenseArray); ("rexit", DenseArray);
      ("ractio", SparseMap); ("rval", SparseMap); ("rflag", DenseArray)]);
    ("exits", [("travel", DenseArray)]);
    ("objects",
     [("odesc1", DenseArray); ("odesc2", DenseArray); ("odesco", SparseMap);
      ("oactio", SparseMap); ("oflag1", DenseArray); ("oflag2", SparseMap);
      ("ofval", SparseMap); ("otval", SparseMap); ("osize", DenseArray);
      ("ocapac", SparseMap); ("oroom", DenseArray); ("oadv", SparseMap);
      ("ocan", SparseMap); ("oread", SparseMap)]);
    ("room-links", [("oroom2", DenseArray); ("rroom2", DenseArray)]);
    ("clock events",
     [("ctick", DenseArray); ("cactio", DenseArray); ("cflag", FlagArray)]);
    ("villains",
     [("villns", DenseArray); ("vprob", SparseMap); ("vopps", SparseMap);
      ("vbest", DenseArray); ("vmelee", DenseArray)]);
    ("adventurers",
     [("aroom", DenseArray); ("ascore", SparseMap); ("avehic", SparseMap);
      ("aobj", DenseArray); ("aactio", DenseArray); ("astren", DenseArray);
      ("aflag", SparseMap)]) ]%string.

(** The six header words, with the two prints that can raise. *)
Definition walk_header {A : Type} (cont : io A) : io A :=
  vmaj <- read_int16_be ;;
  vmin <- read_int16_be ;;
  vedit <- read_int16_be ;;
  print_version vmaj vmin vedit ;;;
  mxscor <- read_int16_be ;;
  strbit <- read_int16_be ;;
  egmxsc <- read_int16_be ;;
  print_parameters mxscor strbit egmxsc ;;;
  cont.

(** The message-index section as a section like the others: a count and one
    dense array of that many values, which are kept. *)
Definition walk_message_index {A : Type} (cont : list Z -> io A) : io A :=
  count <- read_int16_be ;;
  message_indices <- read_multiple_ints count ;;
  cont message_indices.

Definition walk_finish (message_indices : list Z) : io (Z * list Z) :=
  text_start_pos <- f_tell ;;
  ret (text_start_pos, message_indices).

(** The walk as the specification words it: the header, then eight sections,
    each one count followed by its fields. *)
Definition walk_eight_sections : io (Z * list Z) :=
  walk_header (walk_sections skipped_sections (walk_message_index walk_finish)).

(** The same walk with one more 16-bit word, the message base, read between
    the adventurers section and the count of the message index. *)
Definition walk_with_message_base : io (Z * list Z) :=
  walk_header
    (walk_sections skipped_sections
       (mbase <- read_int16_be ;; walk_message_index walk_finish)).

(** Seven empty sections: each count 0, each sparse field closed by its
    one-byte sentinel. *)
Definition empty_sections : list byte :=
  [x00; x00; xff; xff]      (* rooms *)
  ++ [x00; x00]             (* exits *)
  ++ [x00; x00; xff; xff; xff; xff; xff; xff; xff; xff; xff] (* objects *)
  ++ [x00; x00]             (* room-links *)
  ++ [x00; x00]             (* clock events *)
  ++ [x00; x00; xff; xff]   (* villains *)
  ++ [x00; x00; xff; xff; xff]. (* adventurers *)

(** Encrypting is deciphering: the cipher undoes itself. *)
Definition encrypt_text (plain : list byte) : list byte :=
  match decrypt_text plain 0 with
  | Ok e => e
  | _ => []
  end.

(** A file laid out as the specification says: after the empty sections a
    message-index section of count 1 with the one index 5, then the text. *)
Definition one_index_file : list byte :=
  zero_header ++ empty_sections ++ [x00; x01; x00; x05]
  ++ encrypt_text hello_world.

(** A file with the given twelve header bytes, seven empty sections, the two
    bytes of the message base, a message count of 0, and the text region. *)
Definition synthetic_file (header mbase text : list byte) : list byte :=
  header ++ empty_sections ++ mbase ++ [x00; x00] ++ text.

(** The edit number stored in a header. *)
Definition header_vedit (header : list byte) : Z :=
  unpack_h (nth 4 header x00) (nth 5 header x00).

(** ** Encoders, for round trips *)

(** The byte of value [v], for [v] in [range(256)]. *)
Definition byte_of_Z (v : Z) : byte :=
  match Byte.of_N (Z.to_N v) with
  | Some b => b
  | None => x00
  end.

(** [struct.pack('>h', v)]: two's complement, high byte first.  The script
    only decodes; this is the encoding it decodes. *)
Definition pack_h (v : Z) : list byte :=
  let u := v mod 65536 in
  [byte_of_Z (u / 256); byte_of_Z (u mod 256)].

(** The range of a signed 16-bit integer. *)
Definition int16 (v : Z) : Prop := -32768 <= v <= 32767.

(** A dense array on the wire. *)
Definition encode_dense (vs : list Z) : list byte := flat_map pack_h vs.

(** Sparse entries on the wire, with a one-byte and with a 16-bit index. *)
Definition encode_small_pairs (ps : list (Z * Z)) : list byte :=
  flat_map (fun p => byte_of_Z (fst p) :: pack_h (snd p)) ps.

Definition encode_wide_pairs (ps : list (Z * Z)) : list byte :=
  flat_map (fun p => pack_h (fst p) ++ pack_h (snd p)) ps.

(** The keys and values the loop may store. *)
Definition sparse_entry_ok (mc k v : Z) : Prop :=
  int16 v
  /\ (mc < 255 -> 0 <= k <= 254)
  /\ (255 <= mc -> int16 k /\ k <> -1).


(** ** The segmenter, piece by piece *)

(** What one 8-byte record contributes: nothing, or one message. *)
Definition record_message (chunk : list byte) : list str :=
  fixed_stride_step chunk [] 0.

(** The test of line 252: a byte that extends the current run. *)
Definition run_byte (b : byte) : bool :=
  ((32 <=? ord b) && (ord b <=? 126))
  || ((ord b =? 9) || (ord b =? 10) || (ord b =? 13)).

(** A byte that ends the current run: the null byte or any other byte that
    is not a run byte. *)
Definition terminator (b : byte) : Prop := run_byte b = false.

(** What a message of the fixed-stride strategy looks like. *)
Definition record_text (m : str) : Prop :=
  (1 <= length m <= 8)%nat
  /\ ~ In 0 m
  /\ existsb text_char m = true.


(** What a message of the continuous-run strategy looks like. *)
Definition run_text (m : str) : Prop :=
  (3 <= length m)%nat
  /\ Forall (fun c => 32 <= c <= 126 \/ c = 9 \/ c = 10 \/ c = 13) m.

(** Closing a run: it is kept when it has more than two bytes. *)
Definition flush_run (messages : list str) (current_string : list byte)
    : list str :=
  if (2 <? length current_string)%nat
  then messages ++ [decode_ascii_replace current_string]
  else messages.

(** ** Walking forward *)

(** [m] terminates on every file; when it returns it has moved the cursor
    forward by at least [lo] bytes and not past the end, left the content
    alone and established [Q]; when it raises, the exception is a
    [TypeError] or a [ValueError]. *)
Definition walks {A : Type} (m : io A) (lo : nat) (Q : A -> file -> Prop)
    : Prop :=
  forall f,
    match m f with
    | Ok (a, f') =>
        exists n, f' = advance f n
                  /\ (lo <= n <= length (remaining f))%nat /\ Q a f'
    | Raise e => e = TypeError \/ e = ValueError
    | OutOfFuel => False
    end.

(** [m] does not return on an exhausted stream. *)
Definition dies {A : Type} (m : io A) : Prop :=
  forall f, remaining f = [] -> forall r, m f <> Ok r.

Definition anything {A : Type} : A -> file -> Prop := fun _ _ => True.

(** A file with empty sections and a message index of the given values,
    stored behind the message base and a count [count]. *)
Definition indexed_file (header mbase : list byte) (count : Z)
    (indices : list Z) (tail : list byte) : list byte :=
  header ++ empty_sections ++ mbase ++ pack_h count
  ++ encode_dense indices ++ tail.

(** * Properties *)

(** ** Bytes and integers *)

Lemma ord_range (b : byte) : 0 <= ord b < 256.
Proof.
  unfold ord. pose proof (Byte.to_N_bounded b). lia.
Qed.

Lemma ord_inj (a b : byte) : ord a = ord b -> a = b.
Proof.
  unfold ord. intros H. apply N2Z.inj in H.
  pose proof (Byte.of_to_N a) as Ha. pose proof (Byte.of_to_N b) as Hb.
  rewrite H in Ha. congruence.
Qed.

(** Inside [range(256)] the append succeeds and stores the value. *)
Lemma bytearray_append_ok (acc : list byte) (v : Z) :
  0 <= v < 256 ->
  exists b, bytearray_append acc v = Ok (acc ++ [b]) /\ ord b = v.
Proof.
  intros Hv. unfold bytearray_append.
  replace ((0 <=? v) && (v <? 256)) with true
    by (symmetry; apply andb_true_iff; split; [apply Z.leb_le | apply Z.ltb_lt]; lia).
  destruct (Byte.of_N (Z.to_N v)) as [b|] eqn:E.
  - exists b. split; [reflexivity|].
    apply Byte.to_of_N in E. unfold ord. rewrite E. lia.
  - apply Byte.of_N_None_iff in E. lia.
Qed.

Lemma lxor_byte_range (a b : Z) :
  0 <= a < 256 -> 0 <= b < 256 -> 0 <= Z.lxor a b < 256.
Proof.
  intros Ha Hb.
  assert (Hnn : 0 <= Z.lxor a b) by (apply Z.lxor_nonneg; lia).
  split; [exact Hnn|].
  destruct (Z.eq_dec (Z.lxor a b) 0) as [E|E]; [lia|].
  change 256 with (2 ^ 8). apply Z.log2_lt_pow2; [lia|].
  pose proof (Z.log2_lxor a b ltac:(lia) ltac:(lia)) as Hl.
  assert (La : Z.log2 a < 8).
  { destruct (Z.eq_dec a 0) as [->|]; [reflexivity|].
    apply Z.log2_lt_pow2; [lia|]. change (2 ^ 8) with 256. lia. }
  assert (Lb : Z.log2 b < 8).
  { destruct (Z.eq_dec b 0) as [->|]; [reflexivity|].
    apply Z.log2_lt_pow2; [lia|]. change (2 ^ 8) with 256. lia. }
  lia.
Qed.

Lemma land_15_mod (x : Z) : Z.land x 0xf = x mod 16.
Proof. change 0xf with (Z.ones 4). rewrite Z.land_ones by lia. reflexivity. Qed.

Lemma land_255_mod (x : Z) : Z.land x 0xff = x mod 256.
Proof. change 0xff with (Z.ones 8). rewrite Z.land_ones by lia. reflexivity. Qed.

(** Indexing inside the object reads the byte at that place. *)
Lemma bytes_getitem_nth (s : list byte) (i : Z) :
  0 <= i < Z.of_nat (length s) ->
  bytes_getitem s i = Ok (nth (Z.to_nat i) (map ord s) 0).
Proof.
  intros Hi. unfold bytes_getitem.
  replace (i <? 0) with false by (symmetry; apply Z.ltb_ge; lia).
  replace ((0 <=? i) && (i <? Z.of_nat (length s))) with true
    by (symmetry; apply andb_true_iff; split; [apply Z.leb_le | apply Z.ltb_lt]; lia).
  destruct (nth_error s (Z.to_nat i)) as [b|] eqn:E.
  - f_equal. symmetry. apply nth_error_nth.
    rewrite nth_error_map, E. reflexivity.
  - apply nth_error_None in E. lia.
Qed.

(** ** The codec as a map over positions *)

Lemma key_char_at_range (x : Z) : 0 <= key_char_at x < 256.
Proof.
  unfold key_char_at.
  assert (H : 0 <= x mod 16 < 16) by (apply Z.mod_pos_bound; lia).
  assert (Hn : (Z.to_nat (x mod 16) < 16)%nat) by lia.
  revert Hn. generalize (Z.to_nat (x mod 16)). intros n Hn.
  do 16 (destruct n as [|n]; [vm_compute; split; congruence|]). lia.
Qed.

Lemma cipher_value_range (v x : Z) : 0 <= v < 256 -> 0 <= cipher_value v x < 256.
Proof.
  intros Hv. unfold cipher_value.
  apply lxor_byte_range.
  - apply lxor_byte_range; [exact Hv | apply key_char_at_range].
  - apply Z.mod_pos_bound. lia.
Qed.

(** The cipher undoes itself at a fixed counter. *)
Lemma cipher_value_involutive (v x : Z) : cipher_value (cipher_value v x) x = v.
Proof.
  unfold cipher_value.
  rewrite (Z.lxor_assoc v). rewrite (Z.lxor_assoc (Z.lxor v _)).
  rewrite (Z.lxor_assoc v). rewrite Z.lxor_nilpotent, Z.lxor_0_r. reflexivity.
Qed.

Lemma cipher_values_length (data : list byte) (x : Z) :
  length (cipher_values data x) = length data.
Proof.
  revert x. induction data as [|b data IH]; intros x; simpl; [reflexivity|].
  now rewrite IH.
Qed.

Lemma cipher_values_nth (data : list byte) (x : Z) (i : nat) (b : byte) :
  nth_error data i = Some b ->
  nth_error (cipher_values data x) i = Some (cipher_value (ord b) (x + Z.of_nat i)).
Proof.
  revert x i. induction data as [|a data IH]; intros x i H.
  - destruct i; discriminate.
  - destruct i as [|i]; simpl in *.
    + injection H as ->. now rewrite Z.add_0_r.
    + rewrite (IH (x + 1) i H). f_equal. f_equal. lia.
Qed.

(** The loop never raises: it appends the deciphered values one by one. *)
Lemma decrypt_loop_ok (data : list byte) : forall (x : Z) (acc : list byte),
  exists out, decrypt_loop data x acc = Ok (acc ++ out)
              /\ map ord out = cipher_values data x.
Proof.
  induction data as [|b data IH]; intros x acc.
  - exists []. simpl. now rewrite app_nil_r.
  - simpl decrypt_loop.
    rewrite land_15_mod, land_255_mod.
    rewrite bytes_getitem_nth
      by (change (Z.of_nat (length zkey)) with 16; apply Z.mod_pos_bound; lia).
    cbn [rbind]. fold (key_char_at x). fold (cipher_value (ord b) x).
    destruct (bytearray_append_ok acc (cipher_value (ord b) x)) as (o & Ho & Eo).
    { apply cipher_value_range, ord_range. }
    rewrite Ho. cbn [rbind].
    destruct (IH (x + 1) (acc ++ [o])) as (out & Hout & Eout).
    exists (o :: out). split.
    + rewrite Hout. now rewrite <- app_assoc.
    + simpl. now rewrite Eo, Eout.
Qed.

Lemma cipher_values_twice (data : list byte) : forall (out : list byte) (x : Z),
  map ord out = cipher_values data x ->
  cipher_values out x = map ord data.
Proof.
  induction data as [|b data IH]; intros out x H.
  - destruct out; [reflexivity | discriminate].
  - destruct out as [|o out]; [discriminate|].
    simpl in H. injection H as Ho Hout.
    simpl. rewrite Ho, cipher_value_involutive. f_equal. now apply IH.
Qed.

Lemma map_ord_inj (l1 : list byte) : forall l2 : list byte,
  map ord l1 = map ord l2 -> l1 = l2.
Proof.
  induction l1 as [|a l1 IH]; intros [|b l2] H; try discriminate; [reflexivity|].
  simpl in H. injection H as Hab Hl. f_equal; [now apply ord_inj | now apply IH].
Qed.

(** ** C6, C7: the positional XOR codec *)

(** C6.  For every byte sequence and every non-negative start counter [c],
    [decrypt_text] returns (it has no error case) a sequence of the same
    length whose byte at index [i] is, with [x = c + i], the input byte XOR
    [key[x mod 16]] XOR [x mod 256], where [key] is the sixteen ASCII bytes
    of "IanLanceTaylorJr". *)
Theorem decrypt_text_positional (data : list byte) (c : Z) :
  0 <= c ->
  exists out,
    decrypt_text data c = Ok out
    /\ length out = length data
    /\ forall (i : nat) (b : byte),
         nth_error data i = Some b ->
         let x := c + Z.of_nat i in
         exists o,
           nth_error out i = Some o
           /\ ord o =
              Z.lxor
                (Z.lxor (ord b)
                   (nth (Z.to_nat (x mod 16))
                        (map ord (py_bytes "IanLanceTaylorJr")) 0))
                (x mod 256).
Proof.
  intros _. unfold decrypt_text.
  destruct (decrypt_loop_ok data c []) as (out & Hrun & Hout).
  exists out. split; [exact Hrun|]. split.
  - rewrite <- (length_map ord out), Hout. apply cipher_values_length.
  - intros i b Hb. cbv zeta.
    pose proof (cipher_values_nth data c i b Hb) as Hn.
    rewrite <- Hout, nth_error_map in Hn.
    destruct (nth_error out i) as [o|]; [|discriminate].
    exists o. split; [reflexivity|].
    simpl in Hn. injection Hn as Hn. exact Hn.
Qed.

Lemma decrypt_text_positional_witness :
  exists out,
    decrypt_text [x48; x49] 3 = Ok out
    /\ length out = 2%nat
    /\ forall (i : nat) (b : byte),
         nth_error [x48; x49] i = Some b ->
         let x := 3 + Z.of_nat i in
         exists o,
           nth_error out i = Some o
           /\ ord o =
              Z.lxor
                (Z.lxor (ord b)
                   (nth (Z.to_nat (x mod 16))
                        (map ord (py_bytes "IanLanceTaylorJr")) 0))
                (x mod 256).
Proof.
  apply (decrypt_text_positional [x48; x49] 3). lia.
Defined.

(** C7.  Deciphering twice with the same start counter gives the original
    bytes back. *)
Theorem decrypt_text_involutive (B : list byte) (c : Z) :
  0 <= c ->
  exists out, decrypt_text B c = Ok out /\ decrypt_text out c = Ok B.
Proof.
  intros _. unfold decrypt_text.
  destruct (decrypt_loop_ok B c []) as (out & Hrun & Hout).
  destruct (decrypt_loop_ok out c []) as (back & Hrun' & Hback).
  exists out. split; [exact Hrun|].
  rewrite Hrun'. cbn [app]. f_equal.
  apply map_ord_inj. rewrite Hback. now apply cipher_values_twice.
Qed.

Lemma decrypt_text_involutive_witness :
  exists out,
    decrypt_text hello_world 0 = Ok out /\ decrypt_text out 0 = Ok hello_world.
Proof.
  apply (decrypt_text_involutive hello_world 0). lia.
Defined.

(** ** C4: the quality ratio *)

Lemma quality_byte_allowed (v : Z) : quality_byte v = true <-> allowed_value v.
Proof.
  unfold quality_byte, allowed_value.
  rewrite !orb_true_iff, andb_true_iff, !Z.leb_le, !Z.eqb_eq. tauto.
Qed.

Lemma allowed_count_le (d : list byte) : (allowed_count d <= length d)%nat.
Proof. apply List.filter_length_le. Qed.

Lemma allowed_count_zero (d : list byte) :
  allowed_count d = 0%nat <-> Forall (fun b => ~ allowed_value (ord b)) d.
Proof.
  unfold allowed_count. induction d as [|b d IH]; simpl.
  - split; [constructor | reflexivity].
  - destruct (quality_byte (ord b)) eqn:E; simpl.
    + split; [discriminate|]. intros H. inversion H as [|? ? Hb _]; subst.
      exfalso. apply Hb. now apply quality_byte_allowed.
    + rewrite IH. split.
      * intros H. constructor; [|exact H].
        intros Hb. apply quality_byte_allowed in Hb. congruence.
      * intros H. now inversion H.
Qed.

Lemma allowed_count_full (d : list byte) :
  allowed_count d = length d <-> Forall (fun b => allowed_value (ord b)) d.
Proof.
  unfold allowed_count. induction d as [|b d IH]; simpl.
  - split; [constructor | reflexivity].
  - pose proof (allowed_count_le d) as Hle. unfold allowed_count in Hle.
    destruct (quality_byte (ord b)) eqn:E; simpl.
    + split.
      * intros H. constructor; [now apply quality_byte_allowed | apply IH; lia].
      * intros H. inversion H; subst. f_equal. now apply IH.
    + split; [lia|].
      intros H. inversion H as [|? ? Hb _]; subst.
      apply quality_byte_allowed in Hb. congruence.
Qed.

(** On a non-empty input the ratio is the exact quotient. *)
Lemma decryption_quality_ratio (d : list byte) :
  d <> [] ->
  (decryption_quality d == Z.of_nat (allowed_count d) # Pos.of_nat (length d))%Q.
Proof.
  intros Hd. unfold decryption_quality, true_div. fold (allowed_count d).
  assert (Hlen : (0 < length d)%nat) by (destruct d; [congruence | simpl; lia]).
  replace (0 <? Z.of_nat (length d)) with true by (symmetry; apply Z.ltb_lt; lia).
  rewrite Qred_correct.
  replace (Z.to_pos (Z.of_nat (length d))) with (Pos.of_nat (length d)) by lia.
  reflexivity.
Qed.

(** C4, as stated, fails twice: one disallowed byte gives ratio 0 on a
    non-empty input, and on the empty input every byte is allowed while the
    ratio is 0, not 1. *)
Lemma decryption_quality_iff_fails :
  ~ ((decryption_quality [x01] == 0)%Q <-> [x01] = [])
  /\ ~ ((decryption_quality [] == 1)%Q
        <-> Forall (fun b => allowed_value (ord b)) []).
Proof.
  split.
  - intros [H _]. discriminate (H eq_refl).
  - intros [_ H]. discriminate (H ltac:(constructor)).
Qed.

(** C4, amended.  The ratio is 0 on the empty input and otherwise the number
    of bytes in {9, 10, 13, 0} or [32, 126] divided by the number of bytes;
    it is 0 exactly when no byte is in that set, and 1 exactly when the
    input is non-empty and every byte is in it. *)
Theorem decryption_quality_spec (d : list byte) :
  (d = [] -> decryption_quality d = 0%Q)
  /\ (d <> [] ->
      (decryption_quality d
       == Z.of_nat (allowed_count d) # Pos.of_nat (length d))%Q)
  /\ ((decryption_quality d == 0)%Q
      <-> Forall (fun b => ~ allowed_value (ord b)) d)
  /\ ((decryption_quality d == 1)%Q
      <-> d <> [] /\ Forall (fun b => allowed_value (ord b)) d).
Proof.
  split; [intros ->; reflexivity|].
  split; [apply decryption_quality_ratio|].
  destruct d as [|b d].
  - split.
    + split; [constructor | reflexivity].
    + split; [discriminate | intros [H _]; congruence].
  - assert (Hne : b :: d <> []) by discriminate.
    pose proof (decryption_quality_ratio (b :: d) Hne) as Hq.
    split.
    + rewrite <- allowed_count_zero, Hq. unfold Qeq. simpl Qnum. simpl Qden. lia.
    + rewrite Hq. split.
      * intros H. split; [exact Hne|]. apply allowed_count_full.
        revert H. unfold Qeq. simpl Qnum. simpl Qden. simpl length. lia.
      * intros [_ H]. apply allowed_count_full in H. rewrite H.
        unfold Qeq. simpl Qnum. simpl Qden. simpl length. lia.
Qed.

Lemma decryption_quality_spec_witness :
  (decryption_quality hello_world == 1)%Q.
Proof.
  apply (decryption_quality_spec hello_world). split.
  - discriminate.
  - apply allowed_count_full. reflexivity.
Defined.

(** ** C9, C10: choosing between the two segmentations *)

(** C9.  The segmenter returns the candidates of the strategy that produced
    more of them: the continuous-run candidates whenever they are strictly
    more than the fixed-stride ones, and the fixed-stride candidates whenever
    those are strictly more. *)
Theorem segment_returns_longer (d : list byte) :
  ((length (fixed_stride_messages d) < length (continuous_messages d))%nat ->
   fst (segment d) = continuous_messages d)
  /\ ((length (continuous_messages d) < length (fixed_stride_messages d))%nat ->
      fst (segment d) = fixed_stride_messages d).
Proof.
  unfold segment, select_messages. cbn [fst]. split; intros H.
  - apply Nat.ltb_lt in H. now rewrite H.
  - replace (_ <? _)%nat with false; [reflexivity|].
    symmetry. apply Nat.ltb_ge. lia.
Qed.

Lemma segment_returns_longer_witness :
  length (fixed_stride_messages three_vs_five) = 3%nat
  /\ length (continuous_messages three_vs_five) = 5%nat
  /\ fst (segment three_vs_five)
     = [py_str "abc"; py_str "def"; py_str "ghi"; py_str "jkl"; py_str "mno"].
Proof.
  split; [reflexivity|]. split; [reflexivity|].
  rewrite (proj1 (segment_returns_longer three_vs_five)).
  - reflexivity.
  - vm_compute. lia.
Defined.

(** C10.  When both strategies produce equally many candidates (none at all
    included), the fixed-stride candidates are returned. *)
Theorem segment_tie_fixed_stride (d : list byte) :
  length (continuous_messages d) = length (fixed_stride_messages d) ->
  fst (segment d) = fixed_stride_messages d.
Proof.
  intros H. unfold segment, select_messages. cbn [fst].
  rewrite H, Nat.ltb_irrefl. reflexivity.
Qed.

Lemma segment_tie_fixed_stride_witness :
  fst (segment hello_world) = [py_str "HELLO"; py_str "RLD"]
  /\ fst (segment []) = [].
Proof.
  split.
  - rewrite (segment_tie_fixed_stride hello_world); reflexivity.
  - rewrite (segment_tie_fixed_stride []); reflexivity.
Defined.

(** ** Reading from a known stream *)

Lemma remaining_advance (f : file) (n : nat) :
  remaining (advance f n) = skipn n (remaining f).
Proof.
  unfold remaining, advance. cbn [content cursor].
  rewrite skipn_skipn. f_equal. lia.
Qed.

Lemma advance_advance (f : file) (n m : nat) :
  advance (advance f n) m = advance f (n + m).
Proof. unfold advance. cbn [content cursor]. f_equal. lia. Qed.

Lemma advance_0 (f : file) : advance f 0 = f.
Proof. destruct f as [c k]. unfold advance. cbn [content cursor]. f_equal. lia. Qed.

Lemma f_read_advance (n : nat) (f : file) :
  f_read n f = Ok (firstn n (remaining f), advance f (length (firstn n (remaining f)))).
Proof. reflexivity. Qed.

Lemma read_int16_be_some (f : file) (hi lo : byte) (rest : list byte) :
  remaining f = hi :: lo :: rest ->
  read_int16_be f = Ok (Some (unpack_h hi lo), advance f 2).
Proof.
  intros H. unfold read_int16_be, bind. rewrite f_read_advance, H. reflexivity.
Qed.

Lemma read_int16_be_none (f : file) :
  (length (remaining f) < 2)%nat ->
  read_int16_be f = Ok (None, advance f (length (remaining f))).
Proof.
  intros H. unfold read_int16_be, bind. rewrite f_read_advance.
  destruct (remaining f) as [|a [|b l]]; [reflexivity | reflexivity |].
  simpl in H. lia.
Qed.

(** Whatever the stream holds, a 16-bit read returns and moves the cursor
    forward by at most two bytes, never past the end. *)
Lemma read_int16_be_total (f : file) :
  exists v n, read_int16_be f = Ok (v, advance f n)
              /\ (n <= 2)%nat /\ (n <= length (remaining f))%nat
              /\ (v <> None -> n = 2%nat).
Proof.
  destruct (remaining f) as [|a [|b l]] eqn:E.
  - exists None, 0%nat. rewrite read_int16_be_none by (rewrite E; simpl; lia).
    rewrite E. simpl. repeat split; try lia. congruence.
  - exists None, 1%nat. rewrite read_int16_be_none by (rewrite E; simpl; lia).
    rewrite E. simpl. repeat split; try lia. congruence.
  - exists (Some (unpack_h a b)), 2%nat. rewrite (read_int16_be_some f a b l E).
    simpl. repeat split; lia.
Qed.

(** ** The sparse map on the wire *)

Lemma assign_all_app (ps qs : list (Z * Z)) (init : gmap Z Z) :
  assign_all (ps ++ qs) init = assign_all qs (assign_all ps init).
Proof. apply fold_left_app. Qed.

Lemma assign_all_absent (ps : list (Z * Z)) : forall (init : gmap Z Z) (k : Z),
  ~ In k (map fst ps) -> assign_all ps init !! k = init !! k.
Proof.
  induction ps as [|[k' v'] ps IH]; intros init k Hk; [reflexivity|].
  simpl in Hk. cbn [assign_all fold_left fst snd].
  fold (assign_all ps (<[k' := v']> init)).
  rewrite IH by tauto. apply lookup_insert_ne. tauto.
Qed.

(** A later assignment to an index replaces an earlier one. *)
Lemma assign_all_last (ps qs : list (Z * Z)) (init : gmap Z Z) (k v : Z) :
  ~ In k (map fst qs) ->
  assign_all (ps ++ (k, v) :: qs) init !! k = Some v.
Proof.
  intros Hk. rewrite assign_all_app. cbn [assign_all fold_left fst snd].
  fold (assign_all qs (<[k := v]> (assign_all ps init))).
  rewrite assign_all_absent by exact Hk. apply lookup_insert_eq.
Qed.

Section SparseLoops.

Variable mc : Z.

(** One turn of the loop on a one-byte-index entry. *)
Lemma read_partial_loop_small_entry (fuel : nat) (values : gmap Z Z)
    (f : file) (e : small_entry) (rest : list byte) :
  mc < 255 -> small_ok e ->
  remaining f = s_index e :: s_hi e :: s_lo e :: rest ->
  read_partial_loop (S fuel) (Some mc) values f
  = read_partial_loop fuel (Some mc)
      (<[fst (small_pair e) := snd (small_pair e)]> values) (advance f 3).
Proof.
  intros Hmc Hok Hrem. cbn [read_partial_loop].
  replace (mc <? 255) with true by (symmetry; apply Z.ltb_lt; lia).
  unfold bind at 1. rewrite f_read_advance, Hrem. cbn [firstn length].
  replace (ord (s_index e) =? 255) with false
    by (symmetry; apply Z.eqb_neq; exact Hok).
  unfold bind at 1.
  rewrite (read_int16_be_some (advance f 1) (s_hi e) (s_lo e) rest)
    by (rewrite remaining_advance, Hrem; reflexivity).
  rewrite advance_advance. reflexivity.
Qed.

(** One turn of the loop on a 16-bit-index entry. *)
Lemma read_partial_loop_wide_entry (fuel : nat) (values : gmap Z Z)
    (f : file) (e : wide_entry) (rest : list byte) :
  255 <= mc -> wide_ok e ->
  remaining f = w_index_hi e :: w_index_lo e :: w_hi e :: w_lo e :: rest ->
  read_partial_loop (S fuel) (Some mc) values f
  = read_partial_loop fuel (Some mc)
      (<[fst (wide_pair e) := snd (wide_pair e)]> values) (advance f 4).
Proof.
  intros Hmc Hok Hrem. cbn [read_partial_loop].
  replace (mc <? 255) with false by (symmetry; apply Z.ltb_ge; lia).
  unfold bind at 1.
  rewrite (read_int16_be_some f _ _ _ Hrem).
  replace (unpack_h (w_index_hi e) (w_index_lo e) =? -1) with false
    by (symmetry; apply Z.eqb_neq; exact Hok).
  unfold bind at 1.
  rewrite (read_int16_be_some (advance f 2) (w_hi e) (w_lo e) rest)
    by (rewrite remaining_advance, Hrem; reflexivity).
  rewrite advance_advance. reflexivity.
Qed.

Lemma read_partial_loop_small_entries (es : list small_entry) :
  forall (fuel : nat) (values : gmap Z Z) (f : file) (tail : list byte),
    mc < 255 -> Forall small_ok es ->
    remaining f = encode_small es ++ tail ->
    read_partial_loop (length es + fuel) (Some mc) values f
    = read_partial_loop fuel (Some mc)
        (assign_all (map small_pair es) values) (advance f (3 * length es)).
Proof.
  induction es as [|e es IH]; intros fuel values f tail Hmc Hok Hrem.
  - cbn [length Nat.add Nat.mul map assign_all fold_left].
    now rewrite advance_0.
  - inversion Hok as [|? ? He Hes]; subst.
    cbn [length Nat.add].
    rewrite (read_partial_loop_small_entry _ _ f e (encode_small es ++ tail))
      by (try assumption; rewrite Hrem; reflexivity).
    rewrite (IH fuel _ (advance f 3) tail Hmc Hes)
      by (rewrite remaining_advance, Hrem; reflexivity).
    rewrite advance_advance. cbn [map assign_all fold_left].
    f_equal. f_equal. lia.
Qed.

Lemma read_partial_loop_wide_entries (es : list wide_entry) :
  forall (fuel : nat) (values : gmap Z Z) (f : file) (tail : list byte),
    255 <= mc -> Forall wide_ok es ->
    remaining f = encode_wide es ++ tail ->
    read_partial_loop (length es + fuel) (Some mc) values f
    = read_partial_loop fuel (Some mc)
        (assign_all (map wide_pair es) values) (advance f (4 * length es)).
Proof.
  induction es as [|e es IH]; intros fuel values f tail Hmc Hok Hrem.
  - cbn [length Nat.add Nat.mul map assign_all fold_left].
    now rewrite advance_0.
  - inversion Hok as [|? ? He Hes]; subst.
    cbn [length Nat.add].
    rewrite (read_partial_loop_wide_entry _ _ f e (encode_wide es ++ tail))
      by (try assumption; rewrite Hrem; reflexivity).
    rewrite (IH fuel _ (advance f 4) tail Hmc Hes)
      by (rewrite remaining_advance, Hrem; reflexivity).
    rewrite advance_advance. cbn [map assign_all fold_left].
    f_equal. f_equal. lia.
Qed.

(** The loop leaves at the one-byte sentinel, having consumed it. *)
Lemma read_partial_loop_small_sentinel (fuel : nat) (values : gmap Z Z)
    (f : file) (rest : list byte) :
  mc < 255 -> remaining f = xff :: rest ->
  read_partial_loop (S fuel) (Some mc) values f = Ok (values, advance f 1).
Proof.
  intros Hmc Hrem. cbn [read_partial_loop].
  replace (mc <? 255) with true by (symmetry; apply Z.ltb_lt; lia).
  unfold bind at 1. rewrite f_read_advance, Hrem. reflexivity.
Qed.

(** The loop leaves at the 16-bit sentinel, having consumed it. *)
Lemma read_partial_loop_wide_sentinel (fuel : nat) (values : gmap Z Z)
    (f : file) (rest : list byte) :
  255 <= mc -> remaining f = xff :: xff :: rest ->
  read_partial_loop (S fuel) (Some mc) values f = Ok (values, advance f 2).
Proof.
  intros Hmc Hrem. cbn [read_partial_loop].
  replace (mc <? 255) with false by (symmetry; apply Z.ltb_ge; lia).
  unfold bind at 1. rewrite (read_int16_be_some f _ _ _ Hrem). reflexivity.
Qed.

(** The loop leaves at the end of the stream. *)
Lemma read_partial_loop_exhausted (fuel : nat) (values : gmap Z Z) (f : file) :
  remaining f = [] ->
  read_partial_loop (S fuel) (Some mc) values f = Ok (values, f).
Proof.
  intros Hrem. cbn [read_partial_loop].
  destruct (mc <? 255).
  - unfold bind at 1. rewrite f_read_advance, Hrem. cbn [firstn length].
    now rewrite advance_0.
  - unfold bind at 1.
    rewrite read_int16_be_none by (rewrite Hrem; simpl; lia).
    rewrite Hrem. cbn [length]. now rewrite advance_0.
Qed.

(** With more fuel than bytes left, the loop returns on every stream, the
    cursor moved forward and not past the end. *)
Lemma read_partial_loop_total (fuel : nat) :
  forall (values : gmap Z Z) (f : file),
    (length (remaining f) < fuel)%nat ->
    exists d n, read_partial_loop fuel (Some mc) values f = Ok (d, advance f n)
                /\ (n <= length (remaining f))%nat.
Proof.
  induction fuel as [|fuel IH]; intros values f Hfuel; [lia|].
  cbn [read_partial_loop]. destruct (mc <? 255).
  - unfold bind at 1. rewrite f_read_advance.
    destruct (remaining f) as [|b l] eqn:Hrem.
    + exists values, 0%nat. split; [reflexivity | simpl; lia].
    + change (firstn 1 (b :: l)) with [b]. cbn [length].
      destruct (ord b =? 255).
      * exists values, 1%nat. split; [reflexivity | simpl; lia].
      * unfold bind at 1.
        destruct (read_int16_be_total (advance f 1)) as (v & n & Hv & _ & Hn & _).
        rewrite Hv. rewrite remaining_advance, Hrem, length_skipn in Hn.
        cbn [length] in Hn. rewrite advance_advance.
        assert (Hlen : (length (remaining (advance f (1 + n))) < fuel)%nat).
        { rewrite remaining_advance, Hrem, length_skipn.
          cbn [length] in Hfuel |- *. lia. }
        assert (Hle : forall m, (m <= length (remaining (advance f (1 + n))))%nat ->
                                (1 + n + m <= length (b :: l))%nat).
        { intros m. rewrite remaining_advance, Hrem, length_skipn.
          cbn [length]. lia. }
        destruct v as [v|].
        -- destruct (IH (<[ord b := v]> values) _ Hlen) as (d & m & Hd & Hm).
           exists d, (1 + n + m)%nat. rewrite Hd, advance_advance. auto.
        -- destruct (IH values _ Hlen) as (d & m & Hd & Hm).
           exists d, (1 + n + m)%nat. rewrite Hd, advance_advance. auto.
  - unfold bind at 1.
    destruct (read_int16_be_total f) as (i & n & Hi & _ & Hn & Hn2).
    rewrite Hi. destruct i as [i|].
    + specialize (Hn2 ltac:(discriminate)). subst n.
      destruct (i =? -1).
      * exists values, 2%nat. split; [reflexivity | exact Hn].
      * unfold bind at 1.
        destruct (read_int16_be_total (advance f 2)) as (v & n & Hv & _ & Hn' & _).
        rewrite Hv. rewrite remaining_advance, length_skipn in Hn'.
        rewrite advance_advance.
        assert (Hlen : (length (remaining (advance f (2 + n))) < fuel)%nat).
        { rewrite remaining_advance, length_skipn. lia. }
        assert (Hle : forall m, (m <= length (remaining (advance f (2 + n))))%nat ->
                                (2 + n + m <= length (remaining f))%nat).
        { intros m. rewrite remaining_advance, length_skipn. lia. }
        destruct v as [v|].
        -- destruct (IH (<[i := v]> values) _ Hlen) as (d & m & Hd & Hm).
           exists d, (2 + n + m)%nat. rewrite Hd, advance_advance. auto.
        -- destruct (IH values _ Hlen) as (d & m & Hd & Hm).
           exists d, (2 + n + m)%nat. rewrite Hd, advance_advance. auto.
    + exists values, n. split; [reflexivity | exact Hn].
Qed.

End SparseLoops.

Lemma encode_small_length (es : list small_entry) :
  length (encode_small es) = (3 * length es)%nat.
Proof. induction es as [|e es IH]; simpl in *; lia. Qed.

Lemma encode_wide_length (es : list wide_entry) :
  length (encode_wide es) = (4 * length es)%nat.
Proof. induction es as [|e es IH]; simpl in *; lia. Qed.

Lemma skipn_past_prefix (pre rest : list byte) (n : nat) :
  n = length pre -> skipn n (pre ++ rest) = rest.
Proof. intros ->. apply drop_app_length. Qed.

(** ** C8: the sparse map read *)

(** C8.  With a declared count below 255 the read takes entries of a one-byte
    index and a 16-bit value and stops at (and consumes) the first index byte
    255; with a count of 255 or more the index is a signed 16-bit big-endian
    integer and the read stops at (and consumes) index -1.  In both cases it
    also stops at the end of the stream, the cursor ends right behind the
    sentinel, and the dictionary holds, for each index, the value of its last
    entry.  On every stream the read returns. *)
Theorem read_partial_ints_sparse_map (mc : Z) (f : file) :
  (forall (es : list small_entry) (rest : list byte),
      mc < 255 -> Forall small_ok es ->
      remaining f = encode_small es ++ xff :: rest ->
      read_partial_ints (Some mc) f
      = Ok (assign_all (map small_pair es) ∅, advance f (3 * length es + 1))
      /\ remaining (advance f (3 * length es + 1)) = rest)
  /\ (forall (es : list wide_entry) (rest : list byte),
      255 <= mc -> Forall wide_ok es ->
      remaining f = encode_wide es ++ xff :: xff :: rest ->
      read_partial_ints (Some mc) f
      = Ok (assign_all (map wide_pair es) ∅, advance f (4 * length es + 2))
      /\ remaining (advance f (4 * length es + 2)) = rest)
  /\ (forall es : list small_entry,
      mc < 255 -> Forall small_ok es ->
      remaining f = encode_small es ->
      read_partial_ints (Some mc) f
      = Ok (assign_all (map small_pair es) ∅, advance f (3 * length es)))
  /\ (forall es : list wide_entry,
      255 <= mc -> Forall wide_ok es ->
      remaining f = encode_wide es ->
      read_partial_ints (Some mc) f
      = Ok (assign_all (map wide_pair es) ∅, advance f (4 * length es)))
  /\ (exists (d : gmap Z Z) (n : nat),
      read_partial_ints (Some mc) f = Ok (d, advance f n)
      /\ (n <= length (remaining f))%nat)
  /\ (forall (ps qs : list (Z * Z)) (k v : Z),
      ~ In k (map fst qs) ->
      assign_all (ps ++ (k, v) :: qs) ∅ !! k = Some v).
Proof.
  repeat apply conj.
  - intros es rest Hmc Hok Hrem. unfold read_partial_ints. split.
    + replace (S (length (remaining f)))
        with (length es + S (length (remaining f) - length es))%nat
        by (rewrite Hrem, length_app, encode_small_length; simpl; lia).
      rewrite (read_partial_loop_small_entries mc es _ _ f (xff :: rest) Hmc Hok Hrem).
      rewrite (read_partial_loop_small_sentinel mc _ _ _ rest Hmc)
        by (rewrite remaining_advance, Hrem;
            apply skipn_past_prefix; now rewrite encode_small_length).
      now rewrite advance_advance.
    + rewrite remaining_advance, Hrem.
      change (encode_small es ++ xff :: rest)
        with (encode_small es ++ [xff] ++ rest).
      rewrite app_assoc. apply skipn_past_prefix.
      rewrite length_app, encode_small_length. reflexivity.
  - intros es rest Hmc Hok Hrem. unfold read_partial_ints. split.
    + replace (S (length (remaining f)))
        with (length es + S (length (remaining f) - length es))%nat
        by (rewrite Hrem, length_app, encode_wide_length; simpl; lia).
      rewrite (read_partial_loop_wide_entries mc es _ _ f (xff :: xff :: rest) Hmc Hok Hrem).
      rewrite (read_partial_loop_wide_sentinel mc _ _ _ rest Hmc)
        by (rewrite remaining_advance, Hrem;
            apply skipn_past_prefix; now rewrite encode_wide_length).
      now rewrite advance_advance.
    + rewrite remaining_advance, Hrem.
      change (encode_wide es ++ xff :: xff :: rest)
        with (encode_wide es ++ [xff; xff] ++ rest).
      rewrite app_assoc. apply skipn_past_prefix.
      rewrite length_app, encode_wide_length. reflexivity.
  - intros es Hmc Hok Hrem. unfold read_partial_ints.
    replace (S (length (remaining f)))
      with (length es + S (length (remaining f) - length es))%nat
      by (rewrite Hrem, encode_small_length; lia).
    rewrite <- (app_nil_r (encode_small es)) in Hrem.
    rewrite (read_partial_loop_small_entries mc es _ _ f [] Hmc Hok Hrem).
    apply read_partial_loop_exhausted.
    rewrite remaining_advance, Hrem.
    apply skipn_past_prefix. now rewrite encode_small_length.
  - intros es Hmc Hok Hrem. unfold read_partial_ints.
    replace (S (length (remaining f)))
      with (length es + S (length (remaining f) - length es))%nat
      by (rewrite Hrem, encode_wide_length; lia).
    rewrite <- (app_nil_r (encode_wide es)) in Hrem.
    rewrite (read_partial_loop_wide_entries mc es _ _ f [] Hmc Hok Hrem).
    apply read_partial_loop_exhausted.
    rewrite remaining_advance, Hrem.
    apply skipn_past_prefix. now rewrite encode_wide_length.
  - unfold read_partial_ints. apply read_partial_loop_total. lia.
  - intros ps qs k v Hk. now apply assign_all_last.
Qed.

Lemma read_partial_ints_sparse_map_witness :
  (read_partial_ints (Some 10) (open_rb small_wire)
   = Ok (<[3 := -2]> (<[0 := 5]> (<[0 := 9]> ∅)), mkFile small_wire 10)
   /\ remaining (mkFile small_wire 10) = [xaa])
  /\ (read_partial_ints (Some 300) (open_rb wide_wire)
      = Ok (<[3 := -2]> (<[0 := 5]> ∅), mkFile wide_wire 10)
      /\ remaining (mkFile wide_wire 10) = [xaa]).
Proof.
  split.
  - apply (proj1 (read_partial_ints_sparse_map 10 (open_rb small_wire))
             [SmallEntry x00 x00 x09; SmallEntry x00 x00 x05; SmallEntry x03 xff xfe]
             [xaa]).
    + lia.
    + repeat constructor; unfold small_ok; vm_compute; congruence.
    + reflexivity.
  - apply (proj1 (proj2 (read_partial_ints_sparse_map 300 (open_rb wide_wire)))
             [WideEntry x00 x00 x00 x05; WideEntry x00 x03 xff xfe]
             [xaa]).
    + lia.
    + repeat constructor; unfold wide_ok; vm_compute; congruence.
    + reflexivity.
Defined.

(** ** C2, C3: truncated streams *)

(** With an integer count the dense read returns on every stream, with at
    most [count] values, the cursor moved forward and not past the end. *)
Lemma read_multiple_loop_total (n : nat) : forall (values : list Z) (f : file),
  exists vs k,
    read_multiple_loop n values f = Ok (values ++ vs, advance f k)
    /\ (length vs <= n)%nat /\ (k <= length (remaining f))%nat.
Proof.
  induction n as [|n IH]; intros values f.
  - exists [], 0%nat. cbn [read_multiple_loop]. unfold ret.
    rewrite app_nil_r, advance_0. simpl. repeat split; lia.
  - cbn [read_multiple_loop]. unfold bind at 1.
    destruct (read_int16_be_total f) as (v & k & Hv & _ & Hk & _).
    rewrite Hv. destruct v as [v|].
    + destruct (IH (values ++ [v]) (advance f k)) as (vs & k' & Hrun & Hlen & Hk').
      exists (v :: vs), (k + k')%nat.
      rewrite Hrun, advance_advance, <- app_assoc.
      rewrite remaining_advance, length_skipn in Hk'.
      simpl. repeat split; lia.
    + exists [], k. unfold ret. rewrite app_nil_r. simpl. repeat split; lia.
Qed.

(** A count that is [None] is not tolerated: [range(None)] raises. *)
Lemma read_multiple_ints_None (f : file) :
  read_multiple_ints None f = Raise TypeError.
Proof. reflexivity. Qed.

(** C2.  The walker does raise on truncated streams: on a stream that ends
    right after the twelve header bytes the rooms count is [None] and
    [range(None)] (line 124) is a [TypeError]; on the empty stream the
    comparison [vedit < 128] (line 113) already is one. *)
Theorem skip_metadata_truncated_raises :
  skip_metadata (open_rb zero_header) = Raise TypeError
  /\ skip_metadata (open_rb []) = Raise TypeError.
Proof. split; reflexivity. Qed.

(** C3.  On a file that ends right after the six bytes of the version header
    the pipeline raises [TypeError] (the format [{strbit:04x}] of line 119
    meets [None]) instead of returning an empty message list and quality 0. *)
Theorem pipeline_after_version_header_raises :
  run_pipeline [x00; x00; x00; x00; x00; x00] = Raise TypeError.
Proof. reflexivity. Qed.

(** The same for every content of the version header: the pipeline raises,
    [ValueError] if the edit number is negative and [TypeError] otherwise. *)
Lemma pipeline_after_any_version_header_raises (b1 b2 b3 b4 b5 b6 : byte) :
  run_pipeline [b1; b2; b3; b4; b5; b6]
  = Raise (if unpack_h b5 b6 <? 0 then ValueError else TypeError).
Proof.
  unfold run_pipeline, pipeline, skip_metadata.
  unfold bind at 1. unfold bind at 1.
  rewrite (read_int16_be_some (open_rb _) b1 b2 [b3; b4; b5; b6]) by reflexivity.
  unfold bind at 1.
  rewrite (read_int16_be_some (advance (open_rb _) 2) b3 b4 [b5; b6]) by reflexivity.
  unfold bind at 1.
  rewrite (read_int16_be_some (advance (advance (open_rb _) 2) 2) b5 b6 []) by reflexivity.
  unfold bind at 1. unfold print_version, chr, lift, rbind, ret.
  destruct (unpack_h b5 b6 <? 128) eqn:E128.
  - destruct (unpack_h b5 b6 <? 0) eqn:E0.
    + replace (0 <=? unpack_h b5 b6) with false
        by (symmetry; apply Z.leb_gt; apply Z.ltb_lt in E0; lia).
      reflexivity.
    + replace (0 <=? unpack_h b5 b6) with true
        by (symmetry; apply Z.leb_le; apply Z.ltb_ge in E0; lia).
      replace (unpack_h b5 b6 <? 0x110000) with true
        by (symmetry; apply Z.ltb_lt; apply Z.ltb_lt in E128; lia).
      reflexivity.
  - replace (unpack_h b5 b6 <? 0) with false
      by (symmetry; apply Z.ltb_ge; apply Z.ltb_ge in E128; lia).
    reflexivity.
Qed.

(** ** C5: the schema as a table *)

(** C5, as stated, fails: on a file whose message-index section is one count
    and that many values the script does not stop behind them (offset 46) but
    takes the count for the message base, the first index for the count, and
    reads on into the text (offset 56). *)
Lemma skip_metadata_not_eight_sections :
  skip_metadata (open_rb one_index_file)
  <> walk_eight_sections (open_rb one_index_file)
  /\ walk_eight_sections (open_rb one_index_file)
     = Ok ((46, [5]), mkFile one_index_file 46)
  /\ skip_metadata (open_rb one_index_file)
     = Ok ((56, [293; 8195; 10859; 12845; 3620]), mkFile one_index_file 56).
Proof.
  assert (H1 : walk_eight_sections (open_rb one_index_file)
               = Ok ((46, [5]), mkFile one_index_file 46)) by reflexivity.
  assert (H2 : skip_metadata (open_rb one_index_file)
               = Ok ((56, [293; 8195; 10859; 12845; 3620]),
                     mkFile one_index_file 56)) by reflexivity.
  split; [|split; assumption].
  rewrite H1, H2. intros H. discriminate H.
Qed.

(** C5, amended.  The first seven sections begin with exactly one 16-bit
    count followed by their fields, each read with that count; the
    message-index section is a 16-bit message base, then the 16-bit count,
    then the dense array of that many values, and nothing more is read. *)
Theorem skip_metadata_is_table_walk (f : file) :
  skip_metadata f = walk_with_message_base f.
Proof. reflexivity. Qed.

(** ** C1: the end-to-end scenario *)

Lemma decrypt_text_encrypt_text (plain : list byte) :
  decrypt_text (encrypt_text plain) 0 = Ok plain.
Proof.
  unfold encrypt_text, decrypt_text.
  destruct (decrypt_loop_ok plain 0 []) as (out & Hrun & Hout).
  destruct (decrypt_loop_ok out 0 []) as (back & Hrun' & Hback).
  rewrite Hrun. cbn [app]. rewrite Hrun'. cbn [app]. f_equal.
  apply map_ord_inj. rewrite Hback. now apply cipher_values_twice.
Qed.

Lemma read_multiple_ints_empty (c : Z) (f : file) :
  c <= 0 -> read_multiple_ints (Some c) f = Ok ([], f).
Proof.
  intros Hc. unfold read_multiple_ints.
  replace (Z.to_nat c) with 0%nat by lia. reflexivity.
Qed.

Lemma read_flags_empty (c : Z) (f : file) :
  c <= 0 -> read_flags (Some c) f = Ok ([], f).
Proof.
  intros Hc. unfold read_flags.
  replace (Z.to_nat c) with 0%nat by lia. reflexivity.
Qed.

Lemma read_partial_ints_sentinel (mc : Z) (f : file) (rest : list byte) :
  mc < 255 -> remaining f = xff :: rest ->
  read_partial_ints (Some mc) f = Ok (∅, advance f 1).
Proof.
  intros Hmc Hrem. unfold read_partial_ints.
  now apply (read_partial_loop_small_sentinel mc _ _ _ rest).
Qed.

Lemma print_version_ok (vmaj vmin : option Z) (vedit : Z) (f : file) :
  0 <= vedit -> print_version vmaj vmin (Some vedit) f = Ok (tt, f).
Proof.
  intros H. unfold print_version, chr, lift, rbind, ret.
  destruct (vedit <? 128) eqn:E; [|reflexivity].
  apply Z.ltb_lt in E.
  replace (0 <=? vedit) with true by (symmetry; apply Z.leb_le; lia).
  replace (vedit <? 0x110000) with true by (symmetry; apply Z.ltb_lt; lia).
  reflexivity.
Qed.

Lemma print_parameters_ok (mxscor egmxsc : option Z) (strbit : Z) (f : file) :
  print_parameters mxscor (Some strbit) egmxsc f = Ok (tt, f).
Proof. reflexivity. Qed.

(** One read of the walk on a stream whose next bytes are known. *)
Ltac walk_read :=
  unfold bind at 1;
  first
    [ erewrite read_int16_be_some by reflexivity
    | rewrite read_multiple_ints_empty by (vm_compute; congruence)
    | rewrite read_flags_empty by (vm_compute; congruence)
    | erewrite read_partial_ints_sentinel
        by (reflexivity || (vm_compute; reflexivity)) ];
  cbv beta iota.

(** On such a file the walk stops at offset 46, with no message index. *)
Lemma skip_metadata_synthetic_file (header mbase text : list byte) :
  length header = 12%nat -> length mbase = 2%nat ->
  0 <= header_vedit header ->
  skip_metadata (open_rb (synthetic_file header mbase text))
  = Ok ((46, []), mkFile (synthetic_file header mbase text) 46).
Proof.
  intros Hh Hm Hv.
  do 13 (destruct header as [|? header]; try discriminate Hh).
  do 3 (destruct mbase as [|? mbase]; try discriminate Hm).
  unfold header_vedit in Hv. cbn [nth] in Hv.
  unfold skip_metadata.
  do 3 walk_read.
  unfold bind at 1. rewrite print_version_ok by exact Hv. cbv beta iota.
  do 3 walk_read.
  unfold bind at 1. rewrite print_parameters_ok. cbv beta iota.
  repeat walk_read.
  reflexivity.
Qed.

Lemma remaining_synthetic_file (header mbase text : list byte) :
  length header = 12%nat -> length mbase = 2%nat ->
  remaining (mkFile (synthetic_file header mbase text) 46) = text.
Proof.
  intros Hh Hm.
  do 13 (destruct header as [|? header]; try discriminate Hh).
  do 3 (destruct mbase as [|? mbase]; try discriminate Hm).
  reflexivity.
Qed.

(** After the seek the rest of the file is deciphered from counter 0 and
    handed to [segment]. *)
Lemma extract_messages_segment (start_pos : Z) (message_indices : list Z)
    (f : file) (plain : list byte) :
  0 <= start_pos ->
  remaining (mkFile (content f) (Z.to_nat start_pos)) = encrypt_text plain ->
  exists f', extract_messages start_pos message_indices f = Ok (segment plain, f').
Proof.
  intros Hpos Hrem. unfold extract_messages.
  unfold bind at 1. unfold f_seek.
  replace (start_pos <? 0) with false by (symmetry; apply Z.ltb_ge; lia).
  unfold bind at 1. unfold f_read_all. cbv zeta. rewrite Hrem.
  unfold bind at 1. unfold lift. rewrite decrypt_text_encrypt_text.
  unfold ret. eexists. reflexivity.
Qed.

(** On a file with empty sections the pipeline returns what [segment] makes
    of the plain text. *)
Lemma run_pipeline_synthetic_file (header mbase plain : list byte) :
  length header = 12%nat -> length mbase = 2%nat ->
  0 <= header_vedit header ->
  run_pipeline (synthetic_file header mbase (encrypt_text plain))
  = Ok (segment plain).
Proof.
  intros Hh Hm Hv. unfold run_pipeline, pipeline.
  unfold bind at 1. rewrite skip_metadata_synthetic_file by assumption.
  cbn [fst snd].
  destruct (extract_messages_segment 46 []
              (mkFile (synthetic_file header mbase (encrypt_text plain)) 46)
              plain ltac:(lia)) as (f' & Hrun).
  { cbn [content]. change (Z.to_nat 46) with 46%nat.
    now apply remaining_synthetic_file. }
  rewrite Hrun. reflexivity.
Qed.

(** C1, as stated, fails: on the file with an all-zero header and message
    base the pipeline succeeds with quality 1, but the two strategies tie at
    two candidates each and the 8-byte records are returned, "HELLO" and
    "RLD". *)
Lemma pipeline_hello_world_not_recovered :
  run_pipeline (synthetic_file zero_header [x00; x00] (encrypt_text hello_world))
  <> Ok ([py_str "HELLO"; py_str "WORLD"], 1%Q).
Proof. vm_compute. intros H. discriminate H. Qed.

(** C1, amended.  For a file whose twelve header bytes are present with a
    non-negative edit number, whose seven sections before the message index
    all declare count 0 (each sparse field closed by its sentinel), whose
    message index is any message base followed by count 0, and whose text
    region is the encryption from counter 0 of "HELLO\0WORLD\0", the
    pipeline returns the messages "HELLO", "RLD" and quality ratio 1. *)
Theorem pipeline_hello_world (header mbase : list byte) :
  length header = 12%nat -> length mbase = 2%nat ->
  0 <= header_vedit header ->
  run_pipeline (synthetic_file header mbase (encrypt_text hello_world))
  = Ok ([py_str "HELLO"; py_str "RLD"], 1%Q).
Proof.
  intros Hh Hm Hv. now rewrite run_pipeline_synthetic_file.
Qed.

Lemma pipeline_hello_world_witness :
  run_pipeline (synthetic_file zero_header [x00; x2a] (encrypt_text hello_world))
  = Ok ([py_str "HELLO"; py_str "RLD"], 1%Q).
Proof.
  apply (pipeline_hello_world zero_header [x00; x2a]).
  - reflexivity.
  - reflexivity.
  - vm_compute. discriminate.
Defined.

(** * Further properties of the script *)

(** ** 16-bit words *)

Lemma ord_byte_of_Z (v : Z) : 0 <= v < 256 -> ord (byte_of_Z v) = v.
Proof.
  intros Hv. unfold byte_of_Z, ord.
  destruct (Byte.of_N (Z.to_N v)) as [b|] eqn:E.
  - apply Byte.to_of_N in E. rewrite E. lia.
  - apply Byte.of_N_None_iff in E. lia.
Qed.

Lemma byte_of_Z_ord (b : byte) : byte_of_Z (ord b) = b.
Proof.
  unfold byte_of_Z, ord. rewrite N2Z.id, Byte.of_to_N. reflexivity.
Qed.

Lemma unpack_h_range (hi lo : byte) : int16 (unpack_h hi lo).
Proof.
  unfold int16, unpack_h. cbv zeta.
  pose proof (ord_range hi). pose proof (ord_range lo).
  destruct (ord hi * 256 + ord lo <? 32768) eqn:E.
  - apply Z.ltb_lt in E. lia.
  - apply Z.ltb_ge in E. lia.
Qed.

Lemma unpack_h_pack_h (v : Z) :
  int16 v ->
  unpack_h (byte_of_Z (v mod 65536 / 256)) (byte_of_Z (v mod 65536 mod 256)) = v.
Proof.
  unfold int16. intros Hv. unfold unpack_h. cbv zeta.
  assert (Hu : 0 <= v mod 65536 < 65536) by (apply Z.mod_pos_bound; lia).
  assert (Hhi : 0 <= v mod 65536 / 256 < 256)
    by (split; [apply Z.div_pos; lia | apply Z.div_lt_upper_bound; lia]).
  assert (Hlo : 0 <= v mod 65536 mod 256 < 256) by (apply Z.mod_pos_bound; lia).
  rewrite !ord_byte_of_Z by assumption.
  replace (v mod 65536 / 256 * 256 + v mod 65536 mod 256) with (v mod 65536)
    by (rewrite (Z.div_mod (v mod 65536) 256) at 1 by lia; lia).
  destruct (Z_lt_le_dec v 0) as [Hneg|Hpos].
  - replace (v mod 65536) with (v + 65536)
      by (apply Z.mod_unique with (q := -1); lia).
    replace (v + 65536 <? 32768) with false by (symmetry; apply Z.ltb_ge; lia).
    lia.
  - rewrite Z.mod_small by lia.
    replace (v <? 32768) with true by (symmetry; apply Z.ltb_lt; lia).
    reflexivity.
Qed.

Lemma pack_h_unpack_h (hi lo : byte) : pack_h (unpack_h hi lo) = [hi; lo].
Proof.
  pose proof (ord_range hi) as Hhi. pose proof (ord_range lo) as Hlo.
  assert (Hu : unpack_h hi lo mod 65536 = ord hi * 256 + ord lo).
  { unfold unpack_h. cbv zeta.
    destruct (ord hi * 256 + ord lo <? 32768).
    - apply Z.mod_small. lia.
    - symmetry. apply Z.mod_unique with (q := -1); lia. }
  unfold pack_h. cbv zeta. rewrite Hu.
  replace ((ord hi * 256 + ord lo) / 256) with (ord hi)
    by (apply Z.div_unique with (r := ord lo); lia).
  replace ((ord hi * 256 + ord lo) mod 256) with (ord lo)
    by (apply Z.mod_unique with (q := ord hi); lia).
  now rewrite !byte_of_Z_ord.
Qed.

(** X1.  [read_int16_be] decodes what [struct.pack('>h', v)] encodes: on a
    stream that starts with the two bytes of a signed 16-bit [v] it returns
    [v] and moves the cursor behind them. *)
Theorem read_int16_be_pack_h (v : Z) (rest : list byte) (f : file) :
  int16 v ->
  remaining f = pack_h v ++ rest ->
  read_int16_be f = Ok (Some v, advance f 2)
  /\ remaining (advance f 2) = rest.
Proof.
  intros Hv Hrem. split.
  - rewrite (read_int16_be_some f _ _ rest Hrem). now rewrite unpack_h_pack_h.
  - rewrite remaining_advance, Hrem. reflexivity.
Qed.

Lemma read_int16_be_pack_h_witness :
  read_int16_be (open_rb [xff; xfe; xaa])
  = Ok (Some (-2), advance (open_rb [xff; xfe; xaa]) 2)
  /\ remaining (advance (open_rb [xff; xfe; xaa]) 2) = [xaa].
Proof.
  apply (read_int16_be_pack_h (-2) [xaa] (open_rb [xff; xfe; xaa])).
  - unfold int16. lia.
  - reflexivity.
Defined.

(** X2.  [read_int16_be] never raises.  With two bytes left it returns a
    value in the signed 16-bit range and consumes exactly two bytes; with
    fewer it returns [None] and still consumes the byte that was left, so the
    stream is exhausted afterwards. *)
Theorem read_int16_be_cases (f : file) :
  ((2 <= length (remaining f))%nat ->
   exists v, read_int16_be f = Ok (Some v, advance f 2) /\ int16 v)
  /\ ((length (remaining f) < 2)%nat ->
      read_int16_be f = Ok (None, advance f (length (remaining f)))
      /\ remaining (advance f (length (remaining f))) = []).
Proof.
  split.
  - intros Hlen. destruct (remaining f) as [|hi [|lo rest]] eqn:E;
      try (simpl in Hlen; lia).
    exists (unpack_h hi lo). split.
    + now apply (read_int16_be_some f hi lo rest).
    + apply unpack_h_range.
  - intros Hlen. split.
    + now apply read_int16_be_none.
    + rewrite remaining_advance. apply skipn_all.
Qed.

Lemma read_int16_be_cases_witness :
  read_int16_be (open_rb [x07])
  = Ok (None, advance (open_rb [x07]) 1)
  /\ remaining (advance (open_rb [x07]) 1) = [].
Proof.
  apply (proj2 (read_int16_be_cases (open_rb [x07]))). simpl. lia.
Defined.

(** ** Dense arrays and flags *)

Lemma read_multiple_loop_words (vs : list Z) :
  forall (m : nat) (values : list Z) (f : file) (tail : list byte),
    Forall int16 vs ->
    remaining f = encode_dense vs ++ tail ->
    read_multiple_loop (length vs + m) values f
    = read_multiple_loop m (values ++ vs) (advance f (2 * length vs)).
Proof.
  induction vs as [|v vs IH]; intros m values f tail Hvs Hrem.
  - cbn [length Nat.add Nat.mul]. now rewrite app_nil_r, advance_0.
  - inversion Hvs as [|? ? Hv Hvs']; subst.
    cbn [length Nat.add read_multiple_loop]. unfold bind at 1.
    rewrite (read_int16_be_some f _ _ (encode_dense vs ++ tail) Hrem).
    rewrite unpack_h_pack_h by exact Hv.
    rewrite (IH m _ (advance f 2) tail Hvs')
      by (rewrite remaining_advance, Hrem; reflexivity).
    rewrite advance_advance, <- app_assoc. cbn [app].
    f_equal. f_equal. lia.
Qed.

Lemma encode_dense_length (vs : list Z) :
  length (encode_dense vs) = (2 * length vs)%nat.
Proof. induction vs as [|v vs IH]; simpl in *; lia. Qed.

Lemma encode_dense_app (vs ws : list Z) :
  encode_dense (vs ++ ws) = encode_dense vs ++ encode_dense ws.
Proof. apply flat_map_app. Qed.

(** X3.  On a stream that holds at least [count] 16-bit words,
    [read_multiple_ints] returns exactly the first [count] of them and leaves
    the cursor behind the last one read; a count that is zero or negative
    reads nothing. *)
Theorem read_multiple_ints_exact (c : Z) (vs : list Z) (rest : list byte)
    (f : file) :
  Forall int16 vs ->
  c <= Z.of_nat (length vs) ->
  remaining f = encode_dense vs ++ rest ->
  read_multiple_ints (Some c) f
  = Ok (firstn (Z.to_nat c) vs, advance f (2 * Z.to_nat c))
  /\ remaining (advance f (2 * Z.to_nat c))
     = encode_dense (skipn (Z.to_nat c) vs) ++ rest.
Proof.
  intros Hvs Hc Hrem.
  set (n := Z.to_nat c).
  assert (Hn : (n <= length vs)%nat) by lia.
  assert (Hsplit : vs = firstn n vs ++ skipn n vs)
    by (symmetry; apply firstn_skipn).
  assert (Hlen : length (firstn n vs) = n) by (apply firstn_length_le; exact Hn).
  assert (Hrem' : remaining f
                  = encode_dense (firstn n vs) ++ encode_dense (skipn n vs) ++ rest).
  { rewrite Hrem. rewrite Hsplit at 1. now rewrite encode_dense_app, <- app_assoc. }
  split.
  - unfold read_multiple_ints. fold n.
    replace n with (length (firstn n vs) + 0)%nat at 1 by lia.
    rewrite (read_multiple_loop_words (firstn n vs) 0 [] f _
               (Forall_take _ _ _ Hvs) Hrem').
    rewrite Hlen. reflexivity.
  - rewrite remaining_advance, Hrem'. apply skipn_past_prefix.
    now rewrite encode_dense_length, Hlen.
Qed.

Lemma read_multiple_ints_exact_witness :
  read_multiple_ints (Some 2) (open_rb [x00; x05; xff; xfe; x00; x07; xaa])
  = Ok ([5; -2], advance (open_rb [x00; x05; xff; xfe; x00; x07; xaa]) 4)
  /\ remaining (advance (open_rb [x00; x05; xff; xfe; x00; x07; xaa]) 4)
     = [x00; x07; xaa].
Proof.
  apply (read_multiple_ints_exact 2 [5; -2; 7] [xaa]
           (open_rb [x00; x05; xff; xfe; x00; x07; xaa])).
  - repeat constructor; unfold int16; lia.
  - simpl. lia.
  - reflexivity.
Defined.

(** X4.  On a stream that ends before [count] words are read,
    [read_multiple_ints] returns the complete words found, without raising,
    and leaves the stream exhausted: a single byte behind the last complete
    word is consumed and dropped. *)
Theorem read_multiple_ints_truncated (c : Z) (vs : list Z) (tail : list byte)
    (f : file) :
  Forall int16 vs ->
  Z.of_nat (length vs) < c ->
  (length tail < 2)%nat ->
  remaining f = encode_dense vs ++ tail ->
  read_multiple_ints (Some c) f
  = Ok (vs, advance f (length (remaining f)))
  /\ remaining (advance f (length (remaining f))) = [].
Proof.
  intros Hvs Hc Htail Hrem. split.
  - unfold read_multiple_ints.
    replace (Z.to_nat c) with (length vs + S (Z.to_nat c - length vs - 1))%nat
      by lia.
    rewrite (read_multiple_loop_words vs _ [] f tail Hvs Hrem).
    cbn [read_multiple_loop app]. unfold bind at 1.
    assert (Hafter : remaining (advance f (2 * length vs)) = tail).
    { rewrite remaining_advance, Hrem. apply skipn_past_prefix.
      now rewrite encode_dense_length. }
    rewrite read_int16_be_none by (rewrite Hafter; exact Htail).
    rewrite Hafter, advance_advance. unfold ret. f_equal. f_equal. f_equal.
    rewrite Hrem, length_app, encode_dense_length. reflexivity.
  - rewrite remaining_advance. apply skipn_all.
Qed.

Lemma read_multiple_ints_truncated_witness :
  read_multiple_ints (Some 3) (open_rb [x00; x05; xff; xfe; x00])
  = Ok ([5; -2], advance (open_rb [x00; x05; xff; xfe; x00]) 5)
  /\ remaining (advance (open_rb [x00; x05; xff; xfe; x00]) 5) = [].
Proof.
  apply (read_multiple_ints_truncated 3 [5; -2] [x00]
           (open_rb [x00; x05; xff; xfe; x00])).
  - repeat constructor; unfold int16; lia.
  - simpl. lia.
  - simpl. lia.
  - reflexivity.
Defined.

Lemma read_flags_loop_spec (n : nat) : forall (flags : list bool) (f : file),
  read_flags_loop n flags f
  = Ok (flags ++ map (fun b => negb (ord b =? 0)) (firstn n (remaining f)),
        advance f (Nat.min n (length (remaining f)))).
Proof.
  induction n as [|n IH]; intros flags f.
  - cbn [read_flags_loop firstn map Nat.min]. unfold ret.
    now rewrite app_nil_r, advance_0.
  - cbn [read_flags_loop]. unfold bind at 1. rewrite f_read_advance.
    destruct (remaining f) as [|b l] eqn:Hrem.
    + cbn [firstn length map Nat.min]. unfold ret. now rewrite app_nil_r.
    + change (firstn 1 (b :: l)) with [b]. cbn [length].
      rewrite IH, remaining_advance, Hrem, advance_advance.
      cbn [skipn firstn map length Nat.min]. rewrite <- app_assoc.
      reflexivity.
Qed.

(** X5.  [read_flags] with an integer count never raises: it returns one
    boolean per byte read, true exactly for the nonzero bytes, for the first
    [count] bytes of the stream or for all of them if fewer are left, and
    consumes exactly those bytes. *)
Theorem read_flags_spec (c : Z) (f : file) :
  read_flags (Some c) f
  = Ok (map (fun b => negb (ord b =? 0)) (firstn (Z.to_nat c) (remaining f)),
        advance f (Nat.min (Z.to_nat c) (length (remaining f)))).
Proof. unfold read_flags. now rewrite read_flags_loop_spec. Qed.

(** ** Sparse maps: keys, values and round trip *)

Lemma read_int16_be_some_inv (f f' : file) (v : Z) :
  read_int16_be f = Ok (Some v, f') -> int16 v.
Proof.
  destruct (read_int16_be_total f) as (w & n & Hw & _).
  rewrite Hw. intros H. injection H as -> _.
  destruct (remaining f) as [|hi [|lo rest]] eqn:E.
  - rewrite read_int16_be_none in Hw by (rewrite E; simpl; lia). discriminate.
  - rewrite read_int16_be_none in Hw by (rewrite E; simpl; lia). discriminate.
  - rewrite (read_int16_be_some f hi lo rest E) in Hw.
    injection Hw as <- _. apply unpack_h_range.
Qed.

Lemma read_partial_loop_entries_ok (mc : Z) (fuel : nat) :
  forall (values d : gmap Z Z) (f f' : file),
    (forall k v, values !! k = Some v -> sparse_entry_ok mc k v) ->
    read_partial_loop fuel (Some mc) values f = Ok (d, f') ->
    forall k v, d !! k = Some v -> sparse_entry_ok mc k v.
Proof.
  induction fuel as [|fuel IH]; intros values d f f' Hvalues Hrun;
    [discriminate Hrun|].
  cbn [read_partial_loop] in Hrun.
  assert (Hins : forall i w, int16 w ->
                   (mc < 255 -> 0 <= i <= 254) ->
                   (255 <= mc -> int16 i /\ i <> -1) ->
                   forall k v, <[i := w]> values !! k = Some v ->
                               sparse_entry_ok mc k v).
  { intros i w Hw Hsmall Hwide k v Hk.
    destruct (Z.eq_dec i k) as [->|Hne].
    - rewrite lookup_insert_eq in Hk. injection Hk as <-.
      unfold sparse_entry_ok. tauto.
    - rewrite lookup_insert_ne in Hk by exact Hne. now apply Hvalues. }
  destruct (mc <? 255) eqn:Emc.
  - apply Z.ltb_lt in Emc.
    unfold bind at 1 in Hrun. rewrite f_read_advance in Hrun.
    destruct (firstn 1 (remaining f)) as [|b l] eqn:Hb.
    + injection Hrun as <- _. exact Hvalues.
    + cbv zeta in Hrun. destruct (ord b =? 255) eqn:E255.
      * injection Hrun as <- _. exact Hvalues.
      * apply Z.eqb_neq in E255. pose proof (ord_range b) as Hob.
        unfold bind at 1 in Hrun.
        destruct (read_int16_be (advance f (length (b :: l))))
          as [[[w|] f1]| |] eqn:Ew; try discriminate Hrun.
        -- apply (IH _ _ _ _ (Hins (ord b) w
                    (read_int16_be_some_inv _ _ _ Ew)
                    ltac:(lia) ltac:(lia)) Hrun).
        -- apply (IH _ _ _ _ Hvalues Hrun).
  - apply Z.ltb_ge in Emc.
    unfold bind at 1 in Hrun.
    destruct (read_int16_be f) as [[[i|] f1]| |] eqn:Ei; try discriminate Hrun.
    + destruct (i =? -1) eqn:E1.
      * injection Hrun as <- _. exact Hvalues.
      * apply Z.eqb_neq in E1.
        pose proof (read_int16_be_some_inv _ _ _ Ei) as Hi.
        unfold bind at 1 in Hrun.
        destruct (read_int16_be f1) as [[[w|] f2]| |] eqn:Ew;
          try discriminate Hrun.
        -- apply (IH _ _ _ _ (Hins i w
                    (read_int16_be_some_inv _ _ _ Ew)
                    ltac:(lia) ltac:(intros _; split; assumption)) Hrun).
        -- apply (IH _ _ _ _ Hvalues Hrun).
    + injection Hrun as <- _. exact Hvalues.
Qed.

(** X6.  Whatever the stream holds, the dictionary [read_partial_ints]
    returns has only signed 16-bit values; with a count below 255 its keys
    lie in 0..254 (255 is never a key), and with a count of 255 or more its
    keys are signed 16-bit integers other than -1. *)
Theorem read_partial_ints_entries_ok (mc : Z) (f : file) :
  exists (d : gmap Z Z) (f' : file),
    read_partial_ints (Some mc) f = Ok (d, f')
    /\ forall k v, d !! k = Some v ->
         int16 v
         /\ (mc < 255 -> 0 <= k <= 254)
         /\ (255 <= mc -> int16 k /\ k <> -1).
Proof.
  unfold read_partial_ints.
  destruct (read_partial_loop_total mc (S (length (remaining f))) ∅ f
              ltac:(lia)) as (d & n & Hrun & _).
  exists d, (advance f n). split; [exact Hrun|].
  apply (read_partial_loop_entries_ok mc (S (length (remaining f))) ∅ d f
           (advance f n)); [|exact Hrun].
  intros k v Hk. rewrite lookup_empty in Hk. discriminate.
Qed.

Lemma assign_all_list_to_map (ps : list (Z * Z)) :
  assign_all ps ∅ = list_to_map (rev ps).
Proof.
  induction ps as [|p ps IH] using rev_ind; [reflexivity|].
  rewrite assign_all_app, rev_app_distr. cbn [rev app assign_all fold_left].
  rewrite IH. destruct p as [k v]. reflexivity.
Qed.

Lemma small_pairs_as_entries (ps : list (Z * Z)) :
  Forall (fun p => 0 <= fst p <= 254 /\ int16 (snd p)) ps ->
  exists es : list small_entry,
    encode_small es = encode_small_pairs ps
    /\ map small_pair es = ps
    /\ Forall small_ok es.
Proof.
  induction 1 as [|[k v] ps [Hk Hv] _ (es & Henc & Hmap & Hok)].
  - exists []. repeat split. constructor.
  - cbn [fst snd] in Hk, Hv.
    exists (SmallEntry (byte_of_Z k)
              (byte_of_Z (v mod 65536 / 256))
              (byte_of_Z (v mod 65536 mod 256)) :: es).
    split; [|split].
    + cbn [encode_small encode_small_pairs flat_map s_index s_hi s_lo fst snd].
      fold (encode_small es). fold (encode_small_pairs ps).
      rewrite Henc. reflexivity.
    + cbn [map]. rewrite Hmap. f_equal. unfold small_pair.
      cbn [s_index s_hi s_lo].
      rewrite ord_byte_of_Z by lia. now rewrite unpack_h_pack_h.
    + constructor; [|exact Hok]. unfold small_ok. cbn [s_index].
      rewrite ord_byte_of_Z; lia.
Qed.

Lemma wide_pairs_as_entries (ps : list (Z * Z)) :
  Forall (fun p => int16 (fst p) /\ fst p <> -1 /\ int16 (snd p)) ps ->
  exists es : list wide_entry,
    encode_wide es = encode_wide_pairs ps
    /\ map wide_pair es = ps
    /\ Forall wide_ok es.
Proof.
  induction 1 as [|[k v] ps (Hk & Hk1 & Hv) _ (es & Henc & Hmap & Hok)].
  - exists []. repeat split. constructor.
  - cbn [fst snd] in Hk, Hk1, Hv.
    exists (WideEntry (byte_of_Z (k mod 65536 / 256))
              (byte_of_Z (k mod 65536 mod 256))
              (byte_of_Z (v mod 65536 / 256))
              (byte_of_Z (v mod 65536 mod 256)) :: es).
    split; [|split].
    + cbn [encode_wide encode_wide_pairs flat_map
             w_index_hi w_index_lo w_hi w_lo fst snd].
      fold (encode_wide es). fold (encode_wide_pairs ps).
      rewrite Henc. reflexivity.
    + cbn [map]. rewrite Hmap. f_equal. unfold wide_pair.
      cbn [w_index_hi w_index_lo w_hi w_lo].
      now rewrite !unpack_h_pack_h.
    + constructor; [|exact Hok]. unfold wide_ok.
      cbn [w_index_hi w_index_lo]. now rewrite unpack_h_pack_h.
Qed.

(** X7.  Sparse map round trip.  A list of index/value pairs written as
    one-byte index and 16-bit value and closed by the byte 255 is read back,
    under a count below 255, as the map of those pairs, the last pair of an
    index winning; the same list written with 16-bit indices and closed by
    -1 is read back as that map under a count of 255 or more.  The cursor
    ends right behind the sentinel. *)
Theorem read_partial_ints_round_trip (mc : Z) (ps : list (Z * Z))
    (rest : list byte) (f : file) :
  (mc < 255 ->
   Forall (fun p => 0 <= fst p <= 254 /\ int16 (snd p)) ps ->
   remaining f = encode_small_pairs ps ++ xff :: rest ->
   read_partial_ints (Some mc) f
   = Ok (list_to_map (rev ps), advance f (3 * length ps + 1)))
  /\ (255 <= mc ->
      Forall (fun p => int16 (fst p) /\ fst p <> -1 /\ int16 (snd p)) ps ->
      remaining f = encode_wide_pairs ps ++ pack_h (-1) ++ rest ->
      read_partial_ints (Some mc) f
      = Ok (list_to_map (rev ps), advance f (4 * length ps + 2))).
Proof.
  split.
  - intros Hmc Hps Hrem.
    destruct (small_pairs_as_entries ps Hps) as (es & Henc & Hmap & Hok).
    rewrite <- Henc in Hrem. rewrite <- assign_all_list_to_map, <- Hmap.
    rewrite length_map. unfold read_partial_ints.
    replace (S (length (remaining f)))
      with (length es + S (length (remaining f) - length es))%nat
      by (rewrite Hrem, length_app, encode_small_length; simpl; lia).
    rewrite (read_partial_loop_small_entries mc es _ _ f (xff :: rest) Hmc Hok Hrem).
    rewrite (read_partial_loop_small_sentinel mc _ _ _ rest Hmc)
      by (rewrite remaining_advance, Hrem;
          apply skipn_past_prefix; now rewrite encode_small_length).
    now rewrite advance_advance.
  - intros Hmc Hps Hrem.
    destruct (wide_pairs_as_entries ps Hps) as (es & Henc & Hmap & Hok).
    rewrite <- Henc in Hrem. rewrite <- assign_all_list_to_map, <- Hmap.
    rewrite length_map. unfold read_partial_ints.
    change (pack_h (-1) ++ rest) with (xff :: xff :: rest) in Hrem.
    replace (S (length (remaining f)))
      with (length es + S (length (remaining f) - length es))%nat
      by (rewrite Hrem, length_app, encode_wide_length; simpl; lia).
    rewrite (read_partial_loop_wide_entries mc es _ _ f (xff :: xff :: rest) Hmc Hok Hrem).
    rewrite (read_partial_loop_wide_sentinel mc _ _ _ rest Hmc)
      by (rewrite remaining_advance, Hrem;
          apply skipn_past_prefix; now rewrite encode_wide_length).
    now rewrite advance_advance.
Qed.

Lemma read_partial_ints_round_trip_witness :
  read_partial_ints (Some 10) (open_rb small_wire)
  = Ok (list_to_map [(3, -2); (0, 5); (0, 9)], advance (open_rb small_wire) 10)
  /\ read_partial_ints (Some 300) (open_rb wide_wire)
     = Ok (list_to_map [(3, -2); (0, 5)], advance (open_rb wide_wire) 10).
Proof.
  split.
  - apply (proj1 (read_partial_ints_round_trip 10 [(0, 9); (0, 5); (3, -2)]
                    [xaa] (open_rb small_wire))).
    + lia.
    + repeat constructor; unfold int16; simpl; lia.
    + reflexivity.
  - apply (proj2 (read_partial_ints_round_trip 300 [(0, 5); (3, -2)]
                    [xaa] (open_rb wide_wire))).
    + lia.
    + repeat constructor; unfold int16; simpl; lia.
    + reflexivity.
Defined.

(** ** The codec on pieces and on shifted counters *)

Lemma cipher_values_app (a b : list byte) : forall x : Z,
  cipher_values (a ++ b) x
  = cipher_values a x ++ cipher_values b (x + Z.of_nat (length a)).
Proof.
  induction a as [|h a IH]; intros x.
  - cbn [app cipher_values length]. now rewrite Z.add_0_r.
  - cbn [app cipher_values length]. rewrite IH. f_equal. f_equal. f_equal. lia.
Qed.

Lemma decrypt_text_values (data : list byte) (c : Z) :
  exists out, decrypt_text data c = Ok out /\ map ord out = cipher_values data c.
Proof.
  unfold decrypt_text.
  destruct (decrypt_loop_ok data c []) as (out & Hrun & Hout).
  exists out. split; [exact Hrun | exact Hout].
Qed.

(** X8.  Deciphering can be done in pieces: for every start counter,
    negative ones included, the plain text of [a ++ b] from counter [c] is
    the plain text of [a] from [c] followed by the plain text of [b] from
    [c + len(a)]. *)
Theorem decrypt_text_app (a b : list byte) (c : Z) :
  exists pa pb,
    decrypt_text a c = Ok pa
    /\ decrypt_text b (c + Z.of_nat (length a)) = Ok pb
    /\ decrypt_text (a ++ b) c = Ok (pa ++ pb).
Proof.
  destruct (decrypt_text_values a c) as (pa & Ha & Va).
  destruct (decrypt_text_values b (c + Z.of_nat (length a))) as (pb & Hb & Vb).
  destruct (decrypt_text_values (a ++ b) c) as (pab & Hab & Vab).
  exists pa, pb. split; [exact Ha|]. split; [exact Hb|].
  rewrite Hab. f_equal. apply map_ord_inj.
  now rewrite Vab, cipher_values_app, map_app, Va, Vb.
Qed.

Lemma cipher_value_period (v x : Z) : cipher_value v (x + 256) = cipher_value v x.
Proof.
  unfold cipher_value, key_char_at.
  assert (H16 : (x + 256) mod 16 = x mod 16)
    by (replace (x + 256) with (x + 16 * 16) by lia; apply Z_mod_plus_full).
  assert (H256 : (x + 256) mod 256 = x mod 256)
    by (replace (x + 256) with (x + 1 * 256) by lia; apply Z_mod_plus_full).
  now rewrite H16, H256.
Qed.

Lemma cipher_values_period (data : list byte) : forall x : Z,
  cipher_values data (x + 256) = cipher_values data x.
Proof.
  induction data as [|b data IH]; intros x; [reflexivity|].
  cbn [cipher_values]. rewrite cipher_value_period.
  replace (x + 256 + 1) with (x + 1 + 256) by lia. now rewrite IH.
Qed.

(** X9.  The key stream has period 256 in the start counter: deciphering
    from counter [c + 256] gives the same bytes as deciphering from [c]. *)
Theorem decrypt_text_period (data : list byte) (c : Z) :
  decrypt_text data (c + 256) = decrypt_text data c.
Proof.
  destruct (decrypt_text_values data c) as (p & Hp & Vp).
  destruct (decrypt_text_values data (c + 256)) as (q & Hq & Vq).
  rewrite Hp, Hq. f_equal. apply map_ord_inj.
  now rewrite Vq, Vp, cipher_values_period.
Qed.

(** ** The quality ratio is a ratio *)

(** X10.  The quality ratio always lies between 0 and 1. *)
Theorem decryption_quality_bounds (d : list byte) :
  (0 <= decryption_quality d)%Q /\ (decryption_quality d <= 1)%Q.
Proof.
  destruct d as [|b d].
  - split; vm_compute; discriminate.
  - rewrite decryption_quality_ratio by discriminate.
    pose proof (allowed_count_le (b :: d)) as Hle.
    unfold Qle. cbn [Qnum Qden]. split; lia.
Qed.

(** ** Fixed-stride records *)

Lemma bytes_find_from_spec (x : byte) (bs : list byte) : forall i : Z,
  (bytes_find_from bs x i = -1 -> 0 <= i -> Forall (fun b => ord b <> ord x) bs)
  /\ (bytes_find_from bs x i <> -1 -> 0 <= i ->
      i <= bytes_find_from bs x i < i + Z.of_nat (length bs)
      /\ Forall (fun b => ord b <> ord x)
                (firstn (Z.to_nat (bytes_find_from bs x i - i)) bs)).
Proof.
  induction bs as [|b bs IH]; intros i.
  - cbn [bytes_find_from]. split; [constructor | congruence].
  - cbn [bytes_find_from length]. destruct (ord b =? ord x) eqn:E.
    + split; [lia|]. intros _ Hi. split; [lia|].
      rewrite Z.sub_diag. constructor.
    + apply Z.eqb_neq in E. destruct (IH (i + 1)) as [IH1 IH2]. split.
      * intros H Hi. constructor; [exact E | apply IH1; [exact H | lia]].
      * intros H Hi. destruct (IH2 H ltac:(lia)) as [Hr Hf]. split; [lia|].
        replace (Z.to_nat (bytes_find_from bs x (i + 1) - i))
          with (S (Z.to_nat (bytes_find_from bs x (i + 1) - (i + 1)))) by lia.
        cbn [firstn]. constructor; [exact E | exact Hf].
Qed.

(** An accumulator only grows by what the record at [i] contributes. *)
Lemma fixed_stride_step_record (d : list byte) (messages : list str) (i : nat) :
  fixed_stride_step d messages i
  = messages ++ record_message (firstn 8 (skipn i d)).
Proof.
  unfold record_message, fixed_stride_step. cbv zeta.
  rewrite skipn_O.
  rewrite (@firstn_all2 _ 8 (firstn 8 (skipn i d))) by apply firstn_le_length.
  repeat match goal with
         | |- context [if ?c then _ else _] => destruct c
         end; now rewrite ?app_nil_r.
Qed.

Lemma fixed_stride_fold (d : list byte) (l : list nat) : forall acc : list str,
  fold_left (fixed_stride_step d) l acc
  = acc ++ flat_map (fun i => record_message (firstn 8 (skipn i d))) l.
Proof.
  induction l as [|i l IH]; intros acc; cbn [fold_left flat_map].
  - now rewrite app_nil_r.
  - now rewrite IH, fixed_stride_step_record, <- app_assoc.
Qed.

Lemma fixed_stride_messages_records (d : list byte) :
  fixed_stride_messages d
  = flat_map (fun i => record_message (firstn 8 (skipn i d)))
             (range_by_8 (length d)).
Proof. unfold fixed_stride_messages. now rewrite fixed_stride_fold. Qed.

Lemma decode_no_null (bs : list byte) :
  Forall (fun b => ord b <> ord x00) bs -> ~ In 0 (decode_ascii_replace bs).
Proof.
  induction 1 as [|b bs Hb _ IH]; [intros []|].
  cbn [decode_ascii_replace map]. intros [H|H]; [|now apply IH].
  change (ord x00) with 0 in Hb.
  destruct (ord b <? 128); [congruence | discriminate].
Qed.

Lemma record_message_ok (chunk : list byte) :
  (length chunk <= 8)%nat -> Forall record_text (record_message chunk).
Proof.
  intros Hlen. unfold record_message, fixed_stride_step. cbv zeta.
  rewrite skipn_O, (@firstn_all2 _ 8 chunk) by exact Hlen.
  destruct (bytes_find_from_spec x00 chunk 0) as [Hnone Hsome].
  unfold bytes_find.
  set (text := if negb (bytes_find_from chunk x00 0 =? -1)
               then firstn (Z.to_nat (bytes_find_from chunk x00 0)) chunk
               else chunk).
  assert (Htext : (length text <= 8)%nat /\ Forall (fun b => ord b <> ord x00) text).
  { subst text. destruct (bytes_find_from chunk x00 0 =? -1) eqn:E; cbn [negb].
    - apply Z.eqb_eq in E. split; [exact Hlen | now apply Hnone].
    - apply Z.eqb_neq in E. destruct (Hsome E ltac:(lia)) as [_ Hf].
      rewrite Z.sub_0_r in Hf. split; [|exact Hf].
      rewrite length_firstn. lia. }
  destruct Htext as [Hl Hz].
  destruct (0 <? length text)%nat eqn:E0; [|constructor].
  destruct (existsb text_char (decode_ascii_replace text)) eqn:Et; [|constructor].
  cbn [app]. constructor; [|constructor].
  apply Nat.ltb_lt in E0. unfold record_text, decode_ascii_replace.
  rewrite length_map. repeat split; try lia.
  - now apply decode_no_null.
  - exact Et.
Qed.

Lemma record_messages_length (d : list byte) (l : list nat) :
  (length (flat_map (fun i => record_message (firstn 8 (skipn i d))) l)
   <= length l)%nat.
Proof.
  induction l as [|k l IH]; [simpl; lia|].
  cbn [flat_map]. rewrite length_app. cbn [length].
  assert (length (record_message (firstn 8 (skipn k d))) <= 1)%nat.
  { unfold record_message, fixed_stride_step. cbv zeta.
    repeat match goal with
           | |- context [if ?c then _ else _] => destruct c
           end; simpl; lia. }
  lia.
Qed.

(** X11.  Every message of the fixed-stride strategy has between 1 and 8
    characters, contains no null character and has at least one printable
    character or newline, carriage return or tab; and there are at most as
    many messages as 8-byte records, the last one possibly shorter. *)
Theorem fixed_stride_messages_ok (d : list byte) :
  Forall (fun m : str => (1 <= length m <= 8)%nat
                         /\ ~ In 0 m
                         /\ existsb text_char m = true)
         (fixed_stride_messages d)
  /\ (length (fixed_stride_messages d) <= (length d + 7) / 8)%nat.
Proof.
  rewrite fixed_stride_messages_records. split.
  - apply Forall_flat_map, Forall_forall. intros i _.
    apply record_message_ok. apply firstn_le_length.
  - etransitivity; [apply record_messages_length|].
    unfold range_by_8. now rewrite length_map, length_seq.
Qed.

Lemma bytes_find_from_absent (x : byte) (bs : list byte) : forall i : Z,
  Forall (fun b => ord b <> ord x) bs -> bytes_find_from bs x i = -1.
Proof.
  induction bs as [|b bs IH]; intros i H; [reflexivity|].
  inversion H as [|? ? Hb Hbs]; subst. cbn [bytes_find_from].
  replace (ord b =? ord x) with false by (symmetry; now apply Z.eqb_neq).
  now apply IH.
Qed.

Lemma bytes_find_from_first (x : byte) (bs rest : list byte) : forall i : Z,
  Forall (fun b => ord b <> ord x) bs ->
  bytes_find_from (bs ++ x :: rest) x i = i + Z.of_nat (length bs).
Proof.
  induction bs as [|b bs IH]; intros i H.
  - cbn [app bytes_find_from length]. rewrite Z.eqb_refl. lia.
  - inversion H as [|? ? Hb Hbs]; subst. cbn [app bytes_find_from length].
    replace (ord b =? ord x) with false by (symmetry; now apply Z.eqb_neq).
    rewrite IH by exact Hbs. lia.
Qed.

(** X12.  A record of at most 8 bytes is cut at its first null byte: what
    follows the null byte is ignored, and the text before it is the one
    message of the record, provided it has a printable character or a
    newline, carriage return or tab; otherwise the record gives nothing. *)
Theorem fixed_stride_record (text junk : list byte) :
  Forall (fun b => ord b <> 0) text ->
  (length (text ++ junk) <= 8)%nat ->
  junk = [] \/ (exists j, junk = x00 :: j) ->
  fixed_stride_messages (text ++ junk)
  = if existsb text_char (decode_ascii_replace text)
    then [decode_ascii_replace text] else [].
Proof.
  intros Htext Hlen Hjunk.
  destruct (text ++ junk) as [|b0 l0] eqn:Echunk.
  - apply app_eq_nil in Echunk as [-> _]. reflexivity.
  - rewrite <- Echunk in *. rewrite fixed_stride_messages_records.
    assert (Hn : (1 <= length (text ++ junk) <= 8)%nat)
      by (split; [rewrite Echunk; simpl; lia | exact Hlen]).
    unfold range_by_8.
    replace ((length (text ++ junk) + 7) / 8)%nat with 1%nat
      by (apply Nat.div_unique with (r := (length (text ++ junk) - 1)%nat); lia).
    cbn [seq map flat_map Nat.mul]. rewrite app_nil_r.
    rewrite skipn_O, (@firstn_all2 _ 8 (text ++ junk)) by exact Hlen.
    unfold record_message, fixed_stride_step. cbv zeta.
    rewrite skipn_O, (@firstn_all2 _ 8 (text ++ junk)) by exact Hlen.
    assert (Hcut : (if negb (bytes_find (text ++ junk) x00 =? -1)
                    then firstn (Z.to_nat (bytes_find (text ++ junk) x00))
                                (text ++ junk)
                    else text ++ junk) = text).
    { unfold bytes_find. destruct Hjunk as [->|[j ->]].
      - rewrite app_nil_r, bytes_find_from_absent by exact Htext. reflexivity.
      - rewrite bytes_find_from_first by exact Htext.
        replace (0 + Z.of_nat (length text) =? -1) with false
          by (symmetry; apply Z.eqb_neq; lia).
        cbn [negb]. rewrite Z.add_0_l, Nat2Z.id.
        now rewrite firstn_app, Nat.sub_diag, firstn_all, firstn_O, app_nil_r. }
    rewrite Hcut.
    destruct text as [|t text]; [reflexivity|].
    cbn [length Nat.ltb Nat.leb app]. reflexivity.
Qed.

Lemma fixed_stride_record_witness :
  fixed_stride_messages (py_bytes "HELLO" ++ [x00; x57; x4f])
  = [py_str "HELLO"].
Proof.
  apply (fixed_stride_record (py_bytes "HELLO") [x00; x57; x4f]).
  - repeat constructor; vm_compute; discriminate.
  - simpl. lia.
  - right. exists [x57; x4f]. reflexivity.
Defined.

Lemma record_at_left (d1 d2 : list byte) (i : nat) :
  (i + 8 <= length d1)%nat ->
  firstn 8 (skipn i (d1 ++ d2)) = firstn 8 (skipn i d1).
Proof.
  intros H. rewrite skipn_app, firstn_app.
  replace (8 - length (skipn i d1))%nat with 0%nat
    by (rewrite length_skipn; lia).
  now rewrite firstn_O, app_nil_r.
Qed.

Lemma record_at_right (d1 d2 : list byte) (i : nat) :
  skipn (length d1 + i) (d1 ++ d2) = skipn i d2.
Proof.
  rewrite skipn_app, skipn_all2 by lia. cbn [app]. f_equal. lia.
Qed.

Lemma seq_shifted (k m : nat) : forall a : nat,
  seq (a + k) m = map (fun j => (k + j)%nat) (seq a m).
Proof.
  induction m as [|m IH]; intros a; [reflexivity|].
  cbn [seq map]. f_equal; [lia|]. now rewrite <- IH.
Qed.

(** X13.  The fixed-stride strategy works record by record: when the first
    part of the data is a whole number of 8-byte records, the messages of
    the concatenation are the messages of the first part followed by the
    messages of the second. *)
Theorem fixed_stride_messages_app (d1 d2 : list byte) (k : nat) :
  length d1 = (8 * k)%nat ->
  fixed_stride_messages (d1 ++ d2)
  = fixed_stride_messages d1 ++ fixed_stride_messages d2.
Proof.
  intros Hk. rewrite !fixed_stride_messages_records.
  unfold range_by_8. rewrite length_app, Hk.
  replace ((8 * k + length d2 + 7) / 8)%nat with (k + (length d2 + 7) / 8)%nat
    by (replace (8 * k + length d2 + 7)%nat with (k * 8 + (length d2 + 7))%nat
          by lia; now rewrite Nat.div_add_l by lia).
  replace ((8 * k + 7) / 8)%nat with k
    by (apply Nat.div_unique with (r := 7%nat); lia).
  rewrite seq_app, map_app, flat_map_app. f_equal.
  - rewrite !flat_map_concat_map, !map_map. f_equal.
    apply map_ext_in. intros j Hj. apply in_seq in Hj.
    now rewrite record_at_left by lia.
  - rewrite seq_shifted. rewrite !flat_map_concat_map, !map_map. f_equal.
    apply map_ext. intros j.
    replace (8 * (k + j))%nat with (length d1 + 8 * j)%nat by lia.
    now rewrite record_at_right.
Qed.

Lemma fixed_stride_messages_app_witness :
  fixed_stride_messages ((py_bytes "HELLO" ++ [x00; x57; x4f]) ++ py_bytes "RLD")
  = fixed_stride_messages (py_bytes "HELLO" ++ [x00; x57; x4f])
    ++ fixed_stride_messages (py_bytes "RLD").
Proof.
  apply (fixed_stride_messages_app _ _ 1). reflexivity.
Defined.

(** ** Continuous runs *)

Lemma run_byte_range (b : byte) :
  run_byte b = true ->
  (32 <= ord b <= 126 \/ ord b = 9 \/ ord b = 10 \/ ord b = 13).
Proof.
  unfold run_byte.
  rewrite !orb_true_iff, andb_true_iff, !Z.leb_le, !Z.eqb_eq. tauto.
Qed.

Lemma continuous_step_run (messages : list str) (cur : list byte) (b : byte) :
  run_byte b = true ->
  continuous_step (messages, cur) b = (messages, cur ++ [b]).
Proof.
  intros Hb. pose proof (run_byte_range b Hb) as Hr.
  unfold continuous_step. cbv zeta.
  replace (ord b =? 0) with false by (symmetry; apply Z.eqb_neq; lia).
  fold (run_byte b). now rewrite Hb.
Qed.

Lemma decode_run (cur : list byte) :
  Forall (fun b => run_byte b = true) cur ->
  decode_ascii_replace cur = map ord cur
  /\ List.filter text_char (map ord cur) = map ord cur.
Proof.
  induction 1 as [|b cur Hb _ [IH1 IH2]]; [split; reflexivity|].
  pose proof (run_byte_range b Hb) as Hr.
  unfold decode_ascii_replace in *. cbn [map]. split.
  - replace (ord b <? 128) with true by (symmetry; apply Z.ltb_lt; lia).
    now rewrite IH1.
  - cbn [List.filter].
    replace (text_char (ord b)) with true; [now rewrite IH2|].
    symmetry. unfold text_char, isprintable.
    rewrite !orb_true_iff, andb_true_iff, !Z.leb_le, !Z.eqb_eq. lia.
Qed.

(** A run of run bytes always passes the test of line 247: all of its
    characters count, and the ratio 1 exceeds the double 0.7. *)
Lemma ratio_gate_open (cur : list byte) :
  Forall (fun b => run_byte b = true) cur ->
  (0 < length cur)%nat ->
  Qgt_bool
    (true_div
       (Z.of_nat (length (List.filter text_char (decode_ascii_replace cur))))
       (Z.of_nat (length (decode_ascii_replace cur))))
    float_0_7 = true.
Proof.
  intros Hcur Hlen. destruct (decode_run cur Hcur) as [Hd Hf].
  rewrite Hd, Hf, length_map. unfold Qgt_bool.
  destruct (Qle_bool _ float_0_7) eqn:E; [|reflexivity].
  apply Qle_bool_iff in E. unfold true_div in E.
  rewrite Qred_correct in E. exfalso. revert E.
  unfold Qle, float_0_7. cbn [Qnum Qden]. lia.
Qed.

Lemma continuous_step_terminator (messages : list str) (cur : list byte)
    (t : byte) :
  Forall (fun b => run_byte b = true) cur ->
  terminator t ->
  continuous_step (messages, cur) t = (flush_run messages cur, []).
Proof.
  intros Hcur Ht. unfold continuous_step, flush_run. cbv zeta.
  fold (run_byte t). rewrite Ht.
  destruct (ord t =? 0); [|destruct (2 <? length cur)%nat; reflexivity].
  destruct (2 <? length cur)%nat eqn:E; [|reflexivity].
  apply Nat.ltb_lt in E. now rewrite ratio_gate_open by (assumption || lia).
Qed.

(** The loop from any state: the messages found so far stay in front, and
    the run under way holds run bytes only. *)
Lemma continuous_fold (d : list byte) :
  forall (messages : list str) (cur : list byte),
    Forall (fun b => run_byte b = true) cur ->
    fold_left continuous_step d (messages, cur)
    = (messages ++ fst (fold_left continuous_step d ([], cur)),
       snd (fold_left continuous_step d ([], cur)))
    /\ Forall (fun b => run_byte b = true)
              (snd (fold_left continuous_step d ([], cur)))
    /\ Forall run_text (fst (fold_left continuous_step d ([], cur))).
Proof.
  induction d as [|b d IH]; intros messages cur Hcur.
  - cbn [fold_left fst snd]. rewrite app_nil_r. repeat split; [exact Hcur|constructor].
  - cbn [fold_left]. destruct (run_byte b) eqn:Hb.
    + rewrite !continuous_step_run by exact Hb.
      apply IH. apply Forall_app. split; [exact Hcur | now constructor].
    + rewrite !continuous_step_terminator by assumption.
      destruct (IH (flush_run messages cur) [] ltac:(constructor)) as (E1 & H1 & H2).
      destruct (IH (flush_run [] cur) [] ltac:(constructor)) as (E2 & _ & _).
      rewrite E1, E2. cbn [fst snd]. split; [|split; [exact H1|]].
      * f_equal. unfold flush_run.
        destruct (2 <? length cur)%nat; cbn [app]; now rewrite <- ?app_assoc.
      * apply Forall_app. split; [|exact H2]. unfold flush_run.
        destruct (2 <? length cur)%nat eqn:E; [|constructor].
        apply Nat.ltb_lt in E. cbn [app]. constructor; [|constructor].
        destruct (decode_run cur Hcur) as [Hd _]. rewrite Hd.
        split; [now rewrite length_map|].
        apply Forall_map. eapply Forall_impl; [exact Hcur|].
        intros a Ha. cbv beta. now apply run_byte_range.
Qed.

(** X14.  Every message of the continuous-run strategy has at least three
    characters, all of them printable ASCII (32..126) or tab, newline or
    carriage return. *)
Theorem continuous_messages_ok (d : list byte) :
  Forall (fun m : str =>
            (3 <= length m)%nat
            /\ Forall (fun c => 32 <= c <= 126 \/ c = 9 \/ c = 10 \/ c = 13) m)
         (continuous_messages d).
Proof.
  unfold continuous_messages.
  destruct (continuous_fold d [] [] ltac:(constructor)) as (_ & _ & H).
  exact H.
Qed.

Lemma continuous_fold_run (r : list byte) :
  forall (messages : list str) (cur : list byte),
    Forall (fun b => run_byte b = true) r ->
    fold_left continuous_step r (messages, cur) = (messages, cur ++ r).
Proof.
  induction r as [|b r IH]; intros messages cur Hr.
  - cbn [fold_left]. now rewrite app_nil_r.
  - inversion Hr as [|? ? Hb Hr']; subst. cbn [fold_left].
    rewrite continuous_step_run by exact Hb.
    rewrite IH by exact Hr'. now rewrite <- app_assoc.
Qed.

(** The state of the loop after [d]: the run under way holds run bytes. *)
Lemma continuous_state (d : list byte) :
  Forall (fun b => run_byte b = true)
         (snd (fold_left continuous_step d ([], []))).
Proof. now destruct (continuous_fold d [] [] ltac:(constructor)) as (_ & H & _). Qed.

Lemma continuous_fold_terminators (d d' : list byte) :
  Forall2 (fun a b => (run_byte a = true /\ a = b)
                      \/ (terminator a /\ terminator b)) d d' ->
  forall (messages : list str) (cur : list byte),
    Forall (fun b => run_byte b = true) cur ->
    fold_left continuous_step d (messages, cur)
    = fold_left continuous_step d' (messages, cur).
Proof.
  induction 1 as [|a b d d' Hab _ IH]; intros messages cur Hcur; [reflexivity|].
  cbn [fold_left]. destruct Hab as [[Ha <-]|[Ha Hb]].
  - rewrite continuous_step_run by exact Ha.
    apply IH. apply Forall_app. split; [exact Hcur | now constructor].
  - rewrite !continuous_step_terminator by assumption.
    apply IH. constructor.
Qed.

(** X15.  Terminators are interchangeable: two byte sequences that agree on
    their run bytes and have terminators (null or any other byte outside
    printable ASCII, tab, newline, carriage return) at the same places give
    the same continuous-run messages.  So the ratio test applied when a run
    ends at a null byte never rejects a run. *)
Theorem continuous_messages_terminators (d d' : list byte) :
  Forall2 (fun a b => (run_byte a = true /\ a = b)
                      \/ (terminator a /\ terminator b)) d d' ->
  continuous_messages d = continuous_messages d'.
Proof.
  intros H. unfold continuous_messages.
  now rewrite (continuous_fold_terminators d d' H [] []) by constructor.
Qed.

Lemma continuous_messages_terminators_witness :
  continuous_messages (py_bytes "abc" ++ [x00] ++ py_bytes "defg" ++ [x01])
  = continuous_messages (py_bytes "abc" ++ [xff] ++ py_bytes "defg" ++ [x00]).
Proof.
  apply continuous_messages_terminators.
  repeat (constructor;
          [first [left; split; reflexivity | right; split; reflexivity]|]).
  constructor.
Defined.

(** X16.  A run that no terminator follows is dropped: run bytes at the end
    of the data add no message, so data without any terminator gives no
    message at all. *)
Theorem continuous_messages_unterminated (d r : list byte) :
  Forall (fun b => run_byte b = true) r ->
  continuous_messages (d ++ r) = continuous_messages d.
Proof.
  intros Hr. unfold continuous_messages. rewrite fold_left_app.
  destruct (fold_left continuous_step d ([], [])) as [messages cur].
  now rewrite continuous_fold_run.
Qed.

Lemma continuous_messages_unterminated_witness :
  continuous_messages ([] ++ py_bytes "HELLO WORLD") = [].
Proof.
  rewrite (continuous_messages_unterminated [] (py_bytes "HELLO WORLD")).
  - reflexivity.
  - repeat constructor.
Defined.

(** X17.  The continuous-run strategy works piece by piece: behind a
    terminator the scan starts afresh, so the messages of [d1 ++ t :: d2]
    are those of [d1 ++ [t]] followed by those of [d2]. *)
Theorem continuous_messages_app (d1 d2 : list byte) (t : byte) :
  terminator t ->
  continuous_messages (d1 ++ t :: d2)
  = continuous_messages (d1 ++ [t]) ++ continuous_messages d2.
Proof.
  intros Ht. unfold continuous_messages. rewrite !fold_left_app.
  pose proof (continuous_state d1) as Hcur.
  destruct (fold_left continuous_step d1 ([], [])) as [messages cur].
  cbn [snd] in Hcur. cbn [fold_left].
  rewrite continuous_step_terminator by assumption.
  destruct (continuous_fold d2 (flush_run messages cur) [] ltac:(constructor))
    as (E & _ & _).
  rewrite E. reflexivity.
Qed.

Lemma continuous_messages_app_witness :
  continuous_messages (py_bytes "HELLO" ++ x00 :: py_bytes "WORLD" ++ [x00])
  = continuous_messages (py_bytes "HELLO" ++ [x00])
    ++ continuous_messages (py_bytes "WORLD" ++ [x00]).
Proof.
  apply (continuous_messages_app (py_bytes "HELLO") (py_bytes "WORLD" ++ [x00]) x00).
  reflexivity.
Defined.

(** X18.  A single terminated run gives one message, its bytes as
    characters, when it has at least three bytes, and none when it has
    fewer. *)
Theorem continuous_messages_run (r : list byte) (t : byte) :
  Forall (fun b => run_byte b = true) r ->
  terminator t ->
  continuous_messages (r ++ [t])
  = if (2 <? length r)%nat then [map ord r] else [].
Proof.
  intros Hr Ht. unfold continuous_messages. rewrite fold_left_app.
  rewrite continuous_fold_run by exact Hr. cbn [app fold_left].
  rewrite continuous_step_terminator by assumption.
  unfold flush_run. cbn [fst].
  destruct (decode_run r Hr) as [Hd _]. rewrite Hd.
  destruct (2 <? length r)%nat; reflexivity.
Qed.

Lemma continuous_messages_run_witness :
  continuous_messages (py_bytes "ab" ++ [x00]) = []
  /\ continuous_messages (py_bytes "abc" ++ [x07]) = [py_str "abc"].
Proof.
  split.
  - apply (continuous_messages_run (py_bytes "ab") x00);
      [repeat constructor | reflexivity].
  - apply (continuous_messages_run (py_bytes "abc") x07);
      [repeat constructor | reflexivity].
Defined.

(** ** [extract_messages] *)

Lemma extract_messages_run (start_pos : Z) (message_indices : list Z)
    (f : file) (plain : list byte) :
  0 <= start_pos ->
  decrypt_text (skipn (Z.to_nat start_pos) (content f)) 0 = Ok plain ->
  extract_messages start_pos message_indices f
  = Ok (segment plain,
        mkFile (content f)
          (Z.to_nat start_pos
           + length (skipn (Z.to_nat start_pos) (content f)))).
Proof.
  intros Hpos Hplain. unfold extract_messages.
  unfold bind at 1. unfold f_seek.
  replace (start_pos <? 0) with false by (symmetry; apply Z.ltb_ge; lia).
  unfold bind at 1. unfold f_read_all, remaining. cbv zeta.
  cbn [content cursor]. unfold bind at 1. unfold lift. rewrite Hplain.
  reflexivity.
Qed.



(** ** The walk moves forward *)

Lemma walks_seq {A B : Type} (m : io A) (k : A -> io B) (lo : nat)
    (Q : B -> file -> Prop) :
  walks m 0 anything -> (forall x, walks (k x) lo Q) -> walks (bind m k) lo Q.
Proof.
  intros Hm Hk f. unfold bind. specialize (Hm f).
  destruct (m f) as [[a f1]|e|]; [|exact Hm|exact Hm].
  destruct Hm as (n & -> & Hn & _). specialize (Hk a (advance f n)).
  destruct (k a (advance f n)) as [[b f2]|e|]; [|exact Hk|exact Hk].
  destruct Hk as (n' & -> & Hn' & HQ).
  rewrite remaining_advance, length_skipn in Hn'.
  exists (n + n')%nat. rewrite advance_advance in *. repeat split; try lia.
  exact HQ.
Qed.

Lemma dies_seq {A B : Type} (m : io A) (k : A -> io B) :
  walks m 0 anything -> (forall x, dies (k x)) -> dies (bind m k).
Proof.
  intros Hm Hk f Hf r. unfold bind. specialize (Hm f).
  destruct (m f) as [[a f1]|e|]; [|discriminate|discriminate].
  destruct Hm as (n & -> & Hn & _). apply Hk.
  rewrite remaining_advance, Hf. now destruct n.
Qed.

(** A 16-bit read that the rest of the walk cannot do without costs two
    bytes. *)
Lemma walks_word {B : Type} (k : option Z -> io B) (lo : nat)
    (Q : B -> file -> Prop) :
  (forall c, walks (k (Some c)) lo Q) ->
  walks (k None) 0 Q -> dies (k None) ->
  walks (bind read_int16_be k) (2 + lo) Q.
Proof.
  intros Hsome Hnone Hdies f. unfold bind.
  destruct (remaining f) as [|hi [|lo' rest]] eqn:Hrem.
  - rewrite read_int16_be_none by (rewrite Hrem; simpl; lia).
    assert (Hex : remaining (advance f (length (remaining f))) = [])
      by (rewrite remaining_advance; apply skipn_all).
    specialize (Hnone (advance f (length (remaining f)))).
    specialize (Hdies _ Hex).
    destruct (k None (advance f (length (remaining f)))) as [r|e|];
      [now destruct (Hdies r) | exact Hnone | exact Hnone].
  - rewrite read_int16_be_none by (rewrite Hrem; simpl; lia).
    assert (Hex : remaining (advance f (length (remaining f))) = [])
      by (rewrite remaining_advance; apply skipn_all).
    specialize (Hnone (advance f (length (remaining f)))).
    specialize (Hdies _ Hex).
    destruct (k None (advance f (length (remaining f)))) as [r|e|];
      [now destruct (Hdies r) | exact Hnone | exact Hnone].
  - rewrite (read_int16_be_some f hi lo' rest Hrem).
    specialize (Hsome (unpack_h hi lo') (advance f 2)).
    destruct (k (Some (unpack_h hi lo')) (advance f 2)) as [[b f2]|e|];
      [|exact Hsome|exact Hsome].
    destruct Hsome as (n & -> & Hn & HQ).
    rewrite remaining_advance, Hrem, length_skipn in Hn. cbn [length] in Hn.
    rewrite advance_advance in HQ |- *.
    exists (2 + n)%nat. cbn [length]. repeat split; try lia. exact HQ.
Qed.

Lemma walks_read_int16_be : walks read_int16_be 0 anything.
Proof.
  intros f. destruct (read_int16_be_total f) as (v & n & Hv & _ & Hn & _).
  rewrite Hv. exists n. repeat split; lia.
Qed.

Lemma walks_read_multiple_ints (count : option Z) :
  walks (read_multiple_ints count) 0 anything.
Proof.
  intros f. destruct count as [c|]; [|left; reflexivity].
  unfold read_multiple_ints.
  destruct (read_multiple_loop_total (Z.to_nat c) [] f) as (vs & k & Hrun & _ & Hk).
  rewrite Hrun. exists k. repeat split; lia.
Qed.

Lemma walks_read_partial_ints (count : option Z) :
  walks (read_partial_ints count) 0 anything.
Proof.
  intros f. unfold read_partial_ints. destruct count as [c|]; [|left; reflexivity].
  destruct (read_partial_loop_total c (S (length (remaining f))) ∅ f ltac:(lia))
    as (d & n & Hrun & Hn).
  rewrite Hrun. exists n. repeat split; lia.
Qed.

Lemma walks_read_flags (count : option Z) :
  walks (read_flags count) 0 anything.
Proof.
  intros f. destruct count as [c|]; [|left; reflexivity].
  unfold read_flags. rewrite read_flags_loop_spec. eexists. repeat split; lia.
Qed.

Lemma walks_print_version (vmaj vmin vedit : option Z) :
  walks (print_version vmaj vmin vedit) 0 anything.
Proof.
  intros f. unfold print_version, chr, lift, rbind, ret, raise.
  destruct vedit as [e|]; [|left; reflexivity].
  destruct (e <? 128); [destruct ((0 <=? e) && (e <? 0x110000))|];
    try (right; reflexivity);
    exists 0%nat; rewrite advance_0; repeat split; lia.
Qed.

Lemma walks_print_parameters (mxscor strbit egmxsc : option Z) :
  walks (print_parameters mxscor strbit egmxsc) 0 anything.
Proof.
  intros f. unfold print_parameters, ret, raise.
  destruct strbit; [|left; reflexivity].
  exists 0%nat. rewrite advance_0. repeat split; lia.
Qed.

Lemma walks_tell (message_indices : list Z) :
  walks (bind f_tell (fun text_start_pos => ret (text_start_pos, message_indices)))
        0 (fun r f' => fst r = Z.of_nat (cursor f')).
Proof.
  intros f. unfold bind, f_tell, ret.
  exists 0%nat. rewrite advance_0. repeat split; lia.
Qed.

(** On an exhausted stream a count comes back as [None], and the dense read
    that follows raises. *)
Lemma dies_count {B : Type} (k : option Z -> list Z -> io B) :
  dies (bind read_int16_be
          (fun count => bind (read_multiple_ints count) (k count))).
Proof.
  intros f Hf r. unfold bind.
  rewrite read_int16_be_none by (rewrite Hf; simpl; lia). discriminate.
Qed.

Lemma dies_read_multiple_ints_None {B : Type} (k : list Z -> io B) :
  dies (bind (read_multiple_ints None) k).
Proof. intros f _ r. discriminate. Qed.

Ltac walks_leaf :=
  first [ apply walks_read_int16_be | apply walks_read_multiple_ints
        | apply walks_read_partial_ints | apply walks_read_flags
        | apply walks_print_version | apply walks_print_parameters ].

(** Any tail of the walk moves forward. *)
Ltac walks_any :=
  repeat first [ apply walks_tell | apply walks_seq; [walks_leaf | intros ?] ].

(** Any tail of the walk that still has a count to read does not return on
    an exhausted stream. *)
Ltac dies_any :=
  repeat first [ apply dies_count | apply dies_read_multiple_ints_None
               | apply dies_seq; [walks_leaf | intros ?] ].

Lemma skip_metadata_walks_30 :
  walks skip_metadata 30 (fun r f' => fst r = Z.of_nat (cursor f')).
Proof.
  unfold skip_metadata.
  repeat first
    [ apply walks_tell
    | apply walks_word; [intros ? | walks_any | dies_any]
    | apply walks_seq; [walks_leaf | intros ?] ].
Qed.

(** X20.  On every file the walk terminates.  When it returns, the content
    is untouched, the cursor has moved forward by at least 30 bytes (the six
    header words, the eight counts and the message base) and not past the
    end of the file, and the offset returned is the position of the cursor;
    when it raises, the exception is a [TypeError] or a [ValueError]. *)
Theorem skip_metadata_walks (f : file) :
  match skip_metadata f with
  | Ok ((text_start_pos, message_indices), f') =>
      exists n, f' = advance f n
                /\ (30 <= n <= length (remaining f))%nat
                /\ text_start_pos = Z.of_nat (cursor f')
  | Raise e => e = TypeError \/ e = ValueError
  | OutOfFuel => False
  end.
Proof.
  pose proof (skip_metadata_walks_30 f) as H.
  destruct (skip_metadata f) as [[[pos mi] f']|e|]; exact H.
Qed.

(** ** The pipeline on every file *)

(** X21.  The pipeline terminates on every file and has three outcomes
    only.  It raises [TypeError], it raises [ValueError], or it returns
    [segment] applied to the plain text of the region that starts where the
    walk stopped, an offset of at least 30 and at most the length of the
    file; the message index the walk collected plays no part. *)
Theorem run_pipeline_outcomes (bs : list byte) :
  match run_pipeline bs with
  | Ok r =>
      exists (pos : nat) (message_indices : list Z) (plain : list byte),
        skip_metadata (open_rb bs)
        = Ok ((Z.of_nat pos, message_indices), mkFile bs pos)
        /\ (30 <= pos <= length bs)%nat
        /\ decrypt_text (skipn pos bs) 0 = Ok plain
        /\ r = segment plain
  | Raise e => e = TypeError \/ e = ValueError
  | OutOfFuel => False
  end.
Proof.
  unfold run_pipeline, pipeline, bind.
  pose proof (skip_metadata_walks_30 (open_rb bs)) as H.
  destruct (skip_metadata (open_rb bs)) as [[[p mi] f']|e|]; [|exact H|exact H].
  destruct H as (n & -> & Hn & Hp). cbn [fst snd] in *.
  change (advance (open_rb bs) n) with (mkFile bs n) in *.
  change (remaining (open_rb bs)) with (skipn 0 bs) in Hn.
  rewrite skipn_O in Hn. cbn [cursor] in Hp. subst p.
  destruct (decrypt_text_values (skipn n bs) 0) as (plain & Hplain & _).
  rewrite (extract_messages_run (Z.of_nat n) mi (mkFile bs n) plain)
    by (try lia; cbn [content]; now rewrite Nat2Z.id).
  exists n, mi, plain. repeat split; try lia. exact Hplain.
Qed.

(** X22.  A file of fewer than 30 bytes always makes the pipeline raise, a
    [TypeError] or a [ValueError]: the walk needs the six header words, the
    eight counts and the message base. *)
Theorem run_pipeline_short_file (bs : list byte) :
  (length bs < 30)%nat ->
  exists e, run_pipeline bs = Raise e /\ (e = TypeError \/ e = ValueError).
Proof.
  intros Hlen. unfold run_pipeline, pipeline, bind.
  pose proof (skip_metadata_walks_30 (open_rb bs)) as H.
  destruct (skip_metadata (open_rb bs)) as [[[p mi] f']|e|].
  - destruct H as (n & _ & Hn & _).
    change (remaining (open_rb bs)) with (skipn 0 bs) in Hn.
    rewrite skipn_O in Hn. lia.
  - exists e. split; [reflexivity | exact H].
  - destruct H.
Qed.

Lemma run_pipeline_short_file_witness :
  exists e, run_pipeline (firstn 29 (zero_header ++ empty_sections))
            = Raise e /\ (e = TypeError \/ e = ValueError).
Proof.
  apply (run_pipeline_short_file (firstn 29 (zero_header ++ empty_sections))).
  simpl. lia.
Defined.

(** ** The message index *)

(** One read of the walk inside an empty section. *)
Ltac walk_empty :=
  unfold bind at 1;
  first
    [ erewrite read_int16_be_some by reflexivity
    | rewrite (read_multiple_ints_empty (unpack_h x00 x00))
        by (vm_compute; congruence)
    | rewrite (read_flags_empty (unpack_h x00 x00))
        by (vm_compute; congruence)
    | erewrite (read_partial_ints_sentinel (unpack_h x00 x00))
        by (reflexivity || (vm_compute; reflexivity)) ];
  cbv beta iota.

(** The walk up to the message index of an [indexed_file]. *)
Lemma skip_metadata_indexed_file (header mbase : list byte) (count : Z)
    (indices : list Z) (tail : list byte) :
  length header = 12%nat -> length mbase = 2%nat ->
  0 <= header_vedit header -> int16 count ->
  skip_metadata (open_rb (indexed_file header mbase count indices tail))
  = bind (read_multiple_ints (Some count)) walk_finish
      (mkFile (indexed_file header mbase count indices tail) 46)
  /\ remaining (mkFile (indexed_file header mbase count indices tail) 46)
     = encode_dense indices ++ tail.
Proof.
  intros Hh Hm Hv Hc.
  do 13 (destruct header as [|? header]; try discriminate Hh).
  do 3 (destruct mbase as [|? mbase]; try discriminate Hm).
  unfold header_vedit in Hv. cbn [nth] in Hv.
  split; [|reflexivity].
  unfold skip_metadata.
  do 3 walk_empty.
  unfold bind at 1. rewrite print_version_ok by exact Hv. cbv beta iota.
  do 3 walk_empty.
  unfold bind at 1. rewrite print_parameters_ok. cbv beta iota.
  repeat walk_empty.
  rewrite unpack_h_pack_h by exact Hc.
  reflexivity.
Qed.

(** X23.  Message index round trip.  On a file with a valid header, empty
    sections, a message base, a count and that many index words, the walk
    returns exactly the stored index values and the offset of the first byte
    behind them, where the text starts. *)
Theorem skip_metadata_message_indices (header mbase : list byte)
    (indices : list Z) (text : list byte) :
  length header = 12%nat -> length mbase = 2%nat ->
  0 <= header_vedit header ->
  Forall int16 indices -> Z.of_nat (length indices) <= 32767 ->
  let bs := indexed_file header mbase (Z.of_nat (length indices)) indices text in
  skip_metadata (open_rb bs)
  = Ok ((Z.of_nat (46 + 2 * length indices), indices),
        mkFile bs (46 + 2 * length indices))
  /\ skipn (46 + 2 * length indices) bs = text.
Proof.
  intros Hh Hm Hv Hi Hlen bs. subst bs.
  destruct (skip_metadata_indexed_file header mbase
              (Z.of_nat (length indices)) indices text Hh Hm Hv
              ltac:(unfold int16; lia)) as [Hwalk Hrem].
  split.
  - rewrite Hwalk. unfold bind at 1, read_multiple_ints.
    rewrite Nat2Z.id.
    replace (length indices) with (length indices + 0)%nat at 1 by lia.
    rewrite (read_multiple_loop_words indices 0 [] _ text Hi Hrem).
    reflexivity.
  - replace (46 + 2 * length indices)%nat with (2 * length indices + 46)%nat
      by lia.
    rewrite <- skipn_skipn. unfold remaining in Hrem. cbn [content cursor] in Hrem.
    rewrite Hrem. apply skipn_past_prefix. now rewrite encode_dense_length.
Qed.

Lemma skip_metadata_message_indices_witness :
  let bs := indexed_file zero_header [x00; x01] 2 [5; -2] [xaa] in
  skip_metadata (open_rb bs) = Ok ((50, [5; -2]), mkFile bs 50)
  /\ skipn 50 bs = [xaa].
Proof.
  apply (skip_metadata_message_indices zero_header [x00; x01] [5; -2] [xaa]).
  - reflexivity.
  - reflexivity.
  - vm_compute. discriminate.
  - repeat constructor; unfold int16; lia.
  - simpl. lia.
Defined.

(** X24.  A stream that ends inside the message index is tolerated: the walk
    returns the complete index words it found and the offset of the end of
    the file, and the pipeline then returns no message and quality 0. *)
Theorem run_pipeline_truncated_index (header mbase : list byte) (count : Z)
    (indices : list Z) (tail : list byte) :
  length header = 12%nat -> length mbase = 2%nat ->
  0 <= header_vedit header ->
  int16 count -> Forall int16 indices ->
  Z.of_nat (length indices) < count -> (length tail < 2)%nat ->
  let bs := indexed_file header mbase count indices tail in
  skip_metadata (open_rb bs)
  = Ok ((Z.of_nat (length bs), indices), mkFile bs (length bs))
  /\ run_pipeline bs = Ok ([], 0%Q).
Proof.
  intros Hh Hm Hv Hc Hi Hshort Htail bs.
  destruct (skip_metadata_indexed_file header mbase count indices tail
              Hh Hm Hv Hc) as [Hwalk Hrem].
  fold bs in Hwalk, Hrem.
  assert (Hlen : length bs = (46 + length (encode_dense indices ++ tail))%nat).
  { rewrite <- Hrem. unfold remaining. cbn [content cursor].
    rewrite length_skipn.
    assert (46 <= length bs)%nat; [|lia].
    subst bs. unfold indexed_file. rewrite !length_app, Hh, Hm. simpl. lia. }
  assert (Hskip : skip_metadata (open_rb bs)
                  = Ok ((Z.of_nat (length bs), indices), mkFile bs (length bs))).
  { rewrite Hwalk. unfold bind at 1, read_multiple_ints.
    replace (Z.to_nat count)
      with (length indices + S (Z.to_nat count - length indices - 1))%nat by lia.
    rewrite (read_multiple_loop_words indices _ [] _ tail Hi Hrem).
    cbn [read_multiple_loop app]. unfold bind at 1.
    assert (Hafter : remaining (advance (mkFile bs 46) (2 * length indices)) = tail).
    { rewrite remaining_advance, Hrem. apply skipn_past_prefix.
      now rewrite encode_dense_length. }
    rewrite read_int16_be_none by (rewrite Hafter; exact Htail).
    rewrite Hafter, advance_advance. unfold ret, walk_finish, bind, f_tell, ret.
    unfold advance. cbn [content cursor].
    replace (46 + (2 * length indices + length tail))%nat with (length bs)
      by (rewrite Hlen, length_app, encode_dense_length; lia).
    reflexivity. }
  split; [exact Hskip|].
  unfold run_pipeline, pipeline. unfold bind at 1. rewrite Hskip. cbn [fst snd].
  rewrite (extract_messages_run (Z.of_nat (length bs)) indices
             (mkFile bs (length bs)) [])
    by (try lia; cbn [content]; now rewrite Nat2Z.id, skipn_all).
  reflexivity.
Qed.

Lemma run_pipeline_truncated_index_witness :
  let bs := indexed_file zero_header [x00; x01] 4 [5; -2] [xaa] in
  skip_metadata (open_rb bs) = Ok ((Z.of_nat (length bs), [5; -2]), mkFile bs (length bs))
  /\ run_pipeline bs = Ok ([], 0%Q).
Proof.
  apply (run_pipeline_truncated_index zero_header [x00; x01] 4 [5; -2] [xaa]).
  - reflexivity.
  - reflexivity.
  - vm_compute. discriminate.
  - unfold int16. lia.
  - repeat constructor; unfold int16; lia.
  - simpl. lia.
  - simpl. lia.
Defined.

(** X25.  End to end, the counter of the cipher is relative to the text
    region: on a file with a valid header, empty sections and any message
    index, whose text region is the encryption from counter 0 of a plain
    text, the pipeline returns [segment] of that plain text, wherever the
    region starts and whatever the header, the message base and the index
    hold. *)
Theorem run_pipeline_recovers_text (header mbase : list byte)
    (indices : list Z) (plain : list byte) :
  length header = 12%nat -> length mbase = 2%nat ->
  0 <= header_vedit header ->
  Forall int16 indices -> Z.of_nat (length indices) <= 32767 ->
  run_pipeline
    (indexed_file header mbase (Z.of_nat (length indices)) indices
       (encrypt_text plain))
  = Ok (segment plain).
Proof.
  intros Hh Hm Hv Hi Hlen.
  set (bs := indexed_file header mbase (Z.of_nat (length indices)) indices
               (encrypt_text plain)).
  destruct (skip_metadata_indexed_file header mbase
              (Z.of_nat (length indices)) indices (encrypt_text plain)
              Hh Hm Hv ltac:(unfold int16; lia)) as [Hwalk Hrem].
  fold bs in Hwalk, Hrem.
  assert (Hskip : skip_metadata (open_rb bs)
                  = Ok ((Z.of_nat (46 + 2 * length indices), indices),
                        mkFile bs (46 + 2 * length indices))).
  { rewrite Hwalk. unfold bind at 1, read_multiple_ints. rewrite Nat2Z.id.
    replace (length indices) with (length indices + 0)%nat at 1 by lia.
    rewrite (read_multiple_loop_words indices 0 [] _ (encrypt_text plain) Hi Hrem).
    reflexivity. }
  assert (Htext : skipn (46 + 2 * length indices) bs = encrypt_text plain).
  { replace (46 + 2 * length indices)%nat with (2 * length indices + 46)%nat
      by lia.
    rewrite <- skipn_skipn. unfold remaining in Hrem.
    cbn [content cursor] in Hrem. rewrite Hrem.
    apply skipn_past_prefix. now rewrite encode_dense_length. }
  unfold run_pipeline, pipeline. unfold bind at 1. rewrite Hskip. cbn [fst snd].
  rewrite (extract_messages_run _ indices
             (mkFile bs (46 + 2 * length indices)) plain)
    by (try lia; cbn [content]; rewrite Nat2Z.id, Htext;
        apply decrypt_text_encrypt_text).
  reflexivity.
Qed.

Lemma run_pipeline_recovers_text_witness :
  run_pipeline
    (indexed_file zero_header [x01; x02] 2 [5; -2] (encrypt_text three_vs_five))
  = Ok (segment three_vs_five).
Proof.
  apply (run_pipeline_recovers_text zero_header [x01; x02] [5; -2] three_vs_five).
  - reflexivity.
  - reflexivity.
  - vm_compute. discriminate.
  - repeat constructor; unfold int16; lia.
  - simpl. lia.
Defined.
